(** * trtools: top-N selection ([trtools/core/topper.py]) and the
      list-to-table helper's cache ([trtools/tools/list_frame.py])

    A shallow embedding of the two Python modules, and the properties of
    the top-N / bottom-N selectors, of the row-wise driver and of the
    [ListFrame] cache.

    Conventions of the embedding.
    - A float64 cell is [NaN] or [Num z]. The selection code only tests
      cells with [np.isnan], compares them and moves them around, so the
      non-NaN floats are represented by integers with their order (two
      floats that compare equal are one integer).
    - A raised Python exception is the [Raise] alternative of [result].
    - [nb.partsort], [nb.argpartsort] (bottleneck) and [np.argsort] are
      services of external libraries whose output order is not fixed by
      their documentation. The selectors take them as parameters, and the
      general theorems assume only their documented contracts
      ([partsort_contract], [argpartsort_contract], [argsort_contract]);
      [ref_partsort], [ref_argpartsort] and [ref_argsort] are one instance
      of them, on which the code is evaluated at concrete inputs. *)

From Stdlib Require Import String ZArith List Bool Lia Permutation Sorted.
Import ListNotations.
Local Open Scope Z_scope.

(** ** Values, exceptions *)

Inductive float : Type :=
| NaN
| Num (z : Z).

Inductive exn : Type :=
| ValueError
| IndexError
| TypeError
| AttributeError
| OverflowError.

Inductive result (A : Type) : Type :=
| Ok (a : A)
| Raise (e : exn).
Arguments Ok {A} a.
Arguments Raise {A} e.

Definition bind {A B : Type} (c : result A) (k : A -> result B) : result B :=
  match c with
  | Ok a => k a
  | Raise e => Raise e
  end.

Notation "x <- c ;; k" := (bind c (fun x => k))
  (at level 61, c at next level, right associativity).

(** ** numpy on 1-D arrays *)

Definition isnan (x : float) : bool :=
  match x with
  | NaN => true
  | Num _ => false
  end.

(** [len(arr)] *)
Definition len {A : Type} (l : list A) : Z := Z.of_nat (length l).

(** [np.isnan(arr)] and [~mask] *)
Definition np_isnan (arr : list float) : list bool := map isnan arr.
Definition np_not (mask : list bool) : list bool := map negb mask.

(** [arr[mask]] for a boolean mask of the array's length *)
Fixpoint mask_index {A : Type} (arr : list A) (mask : list bool) : list A :=
  match arr, mask with
  | x :: arr', b :: mask' =>
      if b then x :: mask_index arr' mask' else mask_index arr' mask'
  | _, _ => []
  end.

(** [np.where(mask)[0]]: the positions where the mask holds, ascending *)
Fixpoint where_from (i : nat) (mask : list bool) : list nat :=
  match mask with
  | [] => []
  | b :: mask' =>
      if b then i :: where_from (S i) mask' else where_from (S i) mask'
  end.
Definition np_where (mask : list bool) : list nat := where_from 0 mask.

(** [mask.sum()] used as a truth value *)
Definition mask_sum (mask : list bool) : Z :=
  len (filter (fun b => b) mask).

(** Python slices [start:stop] (step 1): [None] bounds, negative bounds
    counted from the end, out-of-range bounds clipped. *)
Record slice : Type := Slice { start : option Z; stop : option Z }.

Definition clip_index (n : nat) (i : Z) : nat :=
  if i <? 0 then Z.to_nat (Z.max 0 (Z.of_nat n + i))
  else Nat.min n (Z.to_nat i).

Definition slice_bounds (n : nat) (sl : slice) : nat * nat :=
  (match start sl with None => 0%nat | Some i => clip_index n i end,
   match stop sl with None => n | Some i => clip_index n i end).

Definition getslice {A : Type} (l : list A) (sl : slice) : list A :=
  let '(lo, hi) := slice_bounds (length l) sl in
  firstn (hi - lo) (skipn lo l).

(** [arr[index]] for an array of positions: [IndexError] out of range.
    The position arrays of this module come from [np.where], [argsort]
    and [argpartsort], so they hold no negative entry. *)
Fixpoint take {A : Type} (arr : list A) (index : list nat) : result (list A) :=
  match index with
  | [] => Ok []
  | i :: index' =>
      match nth_error arr i with
      | Some x => xs <- take arr index' ;; Ok (x :: xs)
      | None => Raise IndexError
      end
  end.

(** Order of [np.sort]: numeric on numbers, NaN after every number. *)
Definition fleb (x y : float) : bool :=
  match x, y with
  | _, NaN => true
  | NaN, Num _ => false
  | Num a, Num b => a <=? b
  end.

Definition fle (x y : float) : Prop := fleb x y = true.

Fixpoint insert_sorted (x : float) (l : list float) : list float :=
  match l with
  | [] => [x]
  | y :: l' => if fleb x y then x :: l else y :: insert_sorted x l'
  end.

(** [np.sort(arr)]: the ascending rearrangement of [arr] *)
Fixpoint np_sort (arr : list float) : list float :=
  match arr with
  | [] => []
  | x :: arr' => insert_sorted x (np_sort arr')
  end.

(** ** numpy 2-D arrays and pandas tables *)

(** A 2-D array: its shape [(rows, cols)] and its rows. *)
Record ndarray : Type := {
  shape : nat * nat;
  data : list (list float)
}.

(** [np.ndarray((rows, cols))]: the cells of a fresh array are whatever the
    memory held; every cell is overwritten before it is read. *)
Definition np_ndarray (rows cols : nat) : ndarray :=
  {| shape := (rows, cols); data := repeat (repeat (Num 0) cols) rows |}.

(** [ret[:] = x] *)
Definition fill (ret : ndarray) (x : float) : ndarray :=
  {| shape := shape ret; data := map (map (fun _ => x)) (data ret) |}.

(** [row[:stop] = src] on a 1-D view. numpy assigns cell by cell when the
    source has the length of the target slice, repeats a one-cell source
    over the target (broadcasting, also over an empty target), and raises
    [ValueError] for any other source. *)
Definition setslice_to (row : list float) (stop : Z) (src : list float)
  : result (list float) :=
  let k := clip_index (length row) stop in
  if Nat.eqb (length src) k then Ok (src ++ skipn k row)
  else match src with
       | [x] => Ok (repeat x k ++ skipn k row)
       | _ => Raise ValueError
       end.

Fixpoint replace_nth {A : Type} (i : nat) (x : A) (l : list A) : list A :=
  match l, i with
  | [], _ => []
  | _ :: l', O => x :: l'
  | y :: l', S i' => y :: replace_nth i' x l'
  end.

(** [ret[i][:stop] = src] *)
Definition setitem_row (ret : ndarray) (i : nat) (stop : Z) (src : list float)
  : result ndarray :=
  match nth_error (data ret) i with
  | None => Raise IndexError
  | Some row =>
      row' <- setslice_to row stop src ;;
      Ok {| shape := shape ret; data := replace_nth i row' (data ret) |}
  end.

Inductive label : Type :=
| LInt (z : Z)
| LStr (s : string).

(** A [pd.DataFrame] of float cells: row labels, column labels, cells. *)
Record DataFrame : Type := {
  index : list label;
  columns : list label;
  values : list (list float)
}.

(** The shape pandas maintains: one row of cells per row label, one cell
    per column label in every row. *)
Definition well_formed (df : DataFrame) : Prop :=
  length (values df) = length (index df)
  /\ Forall (fun row => length row = length (columns df)) (values df).

Definition RangeIndex (n : nat) : list label :=
  map (fun i => LInt (Z.of_nat i)) (seq 0 n).

(** [pd.DataFrame(ret, index=index)]: the columns are numbered; a row index
    of another length than the array's row count is a [ValueError]. *)
Definition pd_DataFrame (ret : ndarray) (index : list label) : result DataFrame :=
  if Nat.eqb (length index) (fst (shape ret)) then
    Ok {| index := index;
          columns := RangeIndex (snd (shape ret));
          values := data ret |}
  else Raise ValueError.

(** ** The selectors of topper.py *)

Section Topper.

(** [nb.partsort], [nb.argpartsort] and [np.argsort] *)
Variable partsort : list float -> Z -> result (list float).
Variable argpartsort : list float -> Z -> result (list nat).
Variable argsort : list float -> list nat.

(** [bn_topn(arr, N, ascending=None)]. [arr] is one-dimensional by its
    type, so the [arr.ndim > 1] guard cannot fire. *)
Definition bn_topn (arr : list float) (N : Z) (ascending : option bool)
  : result (list float) :=
  let ascending :=
    match ascending with
    | None => negb (N >? 0)
    | Some b => b
    end in
  let arr := mask_index arr (np_not (np_isnan arr)) in
  let '(N, sl) :=
    if N >? 0 then
      let N := Z.min (Z.abs N) (len arr) in
      let N := len arr - Z.abs N in
      (N, Slice (Some N) None)
    else
      let N := Z.min (Z.abs N) (len arr) in
      (N, Slice None (Some N)) in
  bn_res <- (if N =? 0 then Ok arr
             else out <- partsort arr N ;; Ok (getslice out sl)) ;;
  let bn_res := np_sort bn_res in
  let bn_res := if negb ascending then rev bn_res else bn_res in
  Ok bn_res.

(** [bn_topargn(arr, N, ascending=None)] *)
Definition bn_topargn (arr : list float) (N : Z) (ascending : option bool)
  : result (list nat) :=
  let ascending :=
    match ascending with
    | None => negb (N >? 0)
    | Some b => b
    end in
  let na_mask := np_isnan arr in
  let has_na := negb (mask_sum na_mask =? 0) in
  let old_index_map := np_where (np_not na_mask) in
  let arr := if has_na then mask_index arr (np_not na_mask) else arr in
  let '(N, sl) :=
    if N >? 0 then
      let N := len arr - Z.abs N in
      (N, Slice (Some N) None)
    else
      let N := Z.abs N in
      (N, Slice None (Some N)) in
  out <- argpartsort arr N ;;
  let index := getslice out sl in
  vals <- take arr index ;;
  let index_sort := argsort vals in
  let index_sort := if negb ascending then rev index_sort else index_sort in
  index <- take index index_sort ;;
  if has_na then take old_index_map index else Ok index.

Definition topn := bn_topn.
Definition topargn := bn_topargn.

(** The loop [for i in range(rows)] of [topn_df] *)
Fixpoint topn_df_loop (range : list nat) (vals : list (list float)) (N : Z)
    (ascending : option bool) (ret : ndarray) : result ndarray :=
  match range with
  | [] => Ok ret
  | i :: range' =>
      match nth_error vals i with
      | None => Raise IndexError
      | Some row =>
          r <- topn row N ascending ;;
          ret <- setitem_row ret i (len r) r ;;
          topn_df_loop range' vals N ascending ret
      end
  end.

(** [topn_df(self, N, ascending=None, wrap=True)]: a table when [wrap],
    the bare array otherwise. *)
Definition topn_df (self : DataFrame) (N : Z) (ascending : option bool)
    (wrap : bool) : result (DataFrame + ndarray) :=
  let vals := values self in
  let rows := length vals in
  let cols := Z.to_nat (Z.min (len (columns self)) (Z.abs N)) in
  let ret := np_ndarray rows cols in
  let ret := fill ret NaN in
  ret <- topn_df_loop (seq 0 rows) vals N ascending ret ;;
  if wrap then
    df <- pd_DataFrame ret (index self) ;; Ok (inl df)
  else Ok (inr ret).

End Topper.

(** ** A reference instance of the external primitives *)

(** The range of a C [int], the type bottleneck declares [n] with. *)
Definition C_INT_MIN : Z := - 2 ^ 31.
Definition C_INT_MAX : Z := 2 ^ 31 - 1.

Definition fits_c_int (n : Z) : bool :=
  (C_INT_MIN <=? n) && (n <=? C_INT_MAX).

Fixpoint insert_by_value (p : float * nat) (l : list (float * nat))
  : list (float * nat) :=
  match l with
  | [] => [p]
  | q :: l' =>
      if fleb (fst p) (fst q) then p :: l else q :: insert_by_value p l'
  end.

Fixpoint sort_by_value (l : list (float * nat)) : list (float * nat) :=
  match l with
  | [] => []
  | p :: l' => insert_by_value p (sort_by_value l')
  end.

(** Modelled from the spec: [np.argsort] of the array library (not part of
    src/), "a generic sort primitive", here the stable one: the positions
    of [arr] in ascending order of their values. *)
Definition ref_argsort (arr : list float) : list nat :=
  map snd (sort_by_value (combine arr (seq 0 (length arr)))).

(** The check both bottleneck primitives make on [n]. The argument is
    converted to a C [int], and a Python integer outside its range is an
    [OverflowError]; an empty array is returned as it is; otherwise [n]
    must be between 1 and the length, inclusive, and any other [n] is a
    [ValueError]. ([bn_topn] guards its call with [if N == 0] for that
    reason.) An [n] between 1 and the length is served first: arrays
    of more cells than a C [int] counts are left out of this model. *)
Definition nb_check {A B : Type} (arr : list A) (n : Z) (empty full : B)
  : result B :=
  if (1 <=? n) && (n <=? len arr) then Ok full
  else if negb (fits_c_int n) then Raise OverflowError
  else match arr with
       | [] => Ok empty
       | _ :: _ => Raise ValueError
       end.

(** Modelled from the spec: the partial-sort primitive of the array library
    (not part of src/), "partition array so the K smallest/largest elements
    occupy one side, unordered within that side". A fully sorted copy is
    such a partition for every split point. *)
Definition ref_partsort (arr : list float) (n : Z) : result (list float) :=
  nb_check arr n [] (np_sort arr).

(** Modelled from the spec: the position form of the same primitive (not
    part of src/), "analogous high-side partition on positions". *)
Definition ref_argpartsort (arr : list float) (n : Z) : result (list nat) :=
  nb_check arr n [] (ref_argsort arr).

(** ** The documented contract of the external primitives *)

Definition no_nan (arr : list float) : Prop :=
  Forall (fun x => isnan x = false) arr.

(** The first [n] cells are no larger than the others. *)
Definition split_at (n : nat) (l : list float) : Prop :=
  forall x y, In x (firstn n l) -> In y (skipn n l) -> fle x y.

(** [arr[index]] when every position is in range *)
Definition values_at (arr : list float) (index : list nat) : list float :=
  map (fun i => nth i arr NaN) index.

(** [nb.partsort(arr, n)] on a NaN-free array: for [1 <= n <= len(arr)] a
    rearrangement whose first [n] cells are the [n] smallest, in any
    order; for another [n], [ValueError] on a non-empty array when [n]
    fits a C [int], and [OverflowError] when it does not. *)
Record partsort_contract (partsort : list float -> Z -> result (list float))
  : Prop := {
  partsort_ok : forall arr n,
    no_nan arr -> 1 <= n <= len arr ->
    exists out, partsort arr n = Ok out /\ Permutation out arr
                /\ split_at (Z.to_nat n) out;
  partsort_range : forall arr n,
    arr <> [] -> n < 1 \/ len arr < n -> fits_c_int n = true ->
    partsort arr n = Raise ValueError;
  partsort_overflow : forall arr n,
    n < 1 \/ len arr < n -> fits_c_int n = false ->
    partsort arr n = Raise OverflowError
}.

(** [nb.argpartsort(arr, n)]: the positions that would partially sort,
    with the same check on [n]. *)
Record argpartsort_contract (argpartsort : list float -> Z -> result (list nat))
  : Prop := {
  argpartsort_ok : forall arr n,
    no_nan arr -> 1 <= n <= len arr ->
    exists out, argpartsort arr n = Ok out
                /\ Permutation out (seq 0 (length arr))
                /\ split_at (Z.to_nat n) (values_at arr out);
  argpartsort_range : forall arr n,
    arr <> [] -> n < 1 \/ len arr < n -> fits_c_int n = true ->
    argpartsort arr n = Raise ValueError;
  argpartsort_overflow : forall arr n,
    n < 1 \/ len arr < n -> fits_c_int n = false ->
    argpartsort arr n = Raise OverflowError
}.

(** [np.argsort(arr)] on a NaN-free array: the positions of [arr] in an
    ascending order of their values (equal values in any order). *)
Record argsort_contract (argsort : list float -> list nat) : Prop := {
  argsort_perm : forall arr,
    no_nan arr -> Permutation (argsort arr) (seq 0 (length arr));
  argsort_sorted : forall arr,
    no_nan arr -> StronglySorted fle (values_at arr (argsort arr))
}.

(** ** What the selectors compute *)

Definition dropna (arr : list float) : list float :=
  filter (fun x => negb (isnan x)) arr.

Definition resolve_ascending (N : Z) (ascending : option bool) : bool :=
  match ascending with
  | None => negb (N >? 0)
  | Some b => b
  end.

Definition orient {A : Type} (ascending : bool) (l : list A) : list A :=
  if ascending then l else rev l.

(** The cells [bn_topn] selects, in ascending order: the [N] largest for
    [N > 0] (all of them when there are fewer), the [|N|] smallest for
    [N < 0], and every number for [N = 0]. *)
Definition selected (arr : list float) (N : Z) : list float :=
  let s := np_sort (dropna arr) in
  if N >? 0 then skipn (length s - Z.to_nat N) s
  else if N =? 0 then s
  else firstn (Z.to_nat (- N)) s.


(** ** list_frame.py: [ListFrame], a list with a cached table *)

Section ListFrameDef.

(** The objects held, with the [==] that [list.remove] tests and the [<]
    that [list.sort] compares with; the table [listframe_to_frame]
    builds and the attribute lists it reads are left abstract. *)
Variable object : Type.
Variable object_eqb : object -> object -> bool.
Variable object_ltb : object -> object -> bool.
Variable frame : Type.
Variable attr_list : Type.
Variable listframe_to_frame : list object -> option attr_list -> bool -> frame.

(** An argument of a call on a list: an integer, an object, or a
    sequence of objects. *)
Inductive pyarg : Type :=
| AInt (i : Z)
| AObj (x : object)
| ASeq (l : list object).

(** Python's position for a list of [n] items: negative positions count
    from the end; [None] when still out of range. *)
Definition list_position (n : nat) (i : Z) : option nat :=
  let j := if i <? 0 then i + Z.of_nat n else i in
  if (0 <=? j) && (j <? Z.of_nat n) then Some (Z.to_nat j) else None.

Fixpoint remove_nth {A : Type} (i : nat) (l : list A) : list A :=
  match l, i with
  | [], _ => []
  | _ :: l', O => l'
  | y :: l', S i' => y :: remove_nth i' l'
  end.

Fixpoint remove_first (x : object) (l : list object) : option (list object) :=
  match l with
  | [] => None
  | y :: l' =>
      if object_eqb y x then Some l'
      else match remove_first x l' with
           | Some r => Some (y :: r)
           | None => None
           end
  end.

Fixpoint insert_object (x : object) (l : list object) : list object :=
  match l with
  | [] => [x]
  | y :: l' => if object_ltb y x then y :: insert_object x l' else x :: l
  end.

(** [list.sort()]: stable (equal items keep their order), by [<] alone *)
Definition list_sort (l : list object) : list object :=
  fold_right insert_object [] l.

(** The methods of the built-in list: the nine that [mutation_methods]
    names, which [getattr(sup, method)] fetches, and the in-place
    operators [+=] ([__iadd__]) and [*=] ([__imul__]), on the items of
    the list, with integer keys. A call with other arguments is a
    [TypeError]; any other name is outside this model and is answered
    with [AttributeError]. *)
Definition list_method (method : string) (args : list pyarg)
    (items : list object) : result (list object) :=
  let n := length items in
  if String.eqb method "append" then
    match args with
    | [AObj x] => Ok (items ++ [x])
    | _ => Raise TypeError
    end
  else if String.eqb method "__setitem__" then
    match args with
    | [AInt i; AObj x] =>
        match list_position n i with
        | Some j => Ok (replace_nth j x items)
        | None => Raise IndexError
        end
    | _ => Raise TypeError
    end
  else if String.eqb method "__delitem__" then
    match args with
    | [AInt i] =>
        match list_position n i with
        | Some j => Ok (remove_nth j items)
        | None => Raise IndexError
        end
    | _ => Raise TypeError
    end
  else if String.eqb method "sort" then
    match args with
    | [] => Ok (list_sort items)
    | _ => Raise TypeError
    end
  else if String.eqb method "extend" then
    match args with
    | [ASeq l] => Ok (items ++ l)
    | _ => Raise TypeError
    end
  else if String.eqb method "insert" then
    match args with
    | [AInt i; AObj x] =>
        let j := clip_index n i in
        Ok (firstn j items ++ x :: skipn j items)
    | _ => Raise TypeError
    end
  else if String.eqb method "pop" then
    match args with
    | [] =>
        match list_position n (-1) with
        | Some j => Ok (remove_nth j items)
        | None => Raise IndexError
        end
    | [AInt i] =>
        match list_position n i with
        | Some j => Ok (remove_nth j items)
        | None => Raise IndexError
        end
    | _ => Raise TypeError
    end
  else if String.eqb method "remove" then
    match args with
    | [AObj x] =>
        match remove_first x items with
        | Some items' => Ok items'
        | None => Raise ValueError
        end
    | _ => Raise TypeError
    end
  else if String.eqb method "reverse" then
    match args with
    | [] => Ok (rev items)
    | _ => Raise TypeError
    end
  else if String.eqb method "__iadd__" then
    match args with
    | [ASeq l] => Ok (items ++ l)
    | _ => Raise TypeError
    end
  else if String.eqb method "__imul__" then
    match args with
    | [AInt k] => Ok (concat (repeat items (Z.to_nat k)))
    | _ => Raise TypeError
    end
  else Raise AttributeError.

(** An instance: the items of the list and the instance attributes. The
    class attribute [_cache_df = None] is the initial value. *)
Record ListFrame : Type := {
  items : list object;
  attrs : option attr_list;
  repr_col : bool;
  _cache_df : option frame
}.

(** [ListFrame(data, attrs, repr_col)] *)
Definition ListFrame_init (data : option (list object))
    (attrs : option attr_list) (repr_col : bool) : ListFrame :=
  let data := match data with None => [] | Some d => d end in
  {| items := data; attrs := attrs; repr_col := repr_col;
     _cache_df := None |}.

(** [self.to_frame(attrs=None, repr_col=None)] *)
Definition to_frame (self : ListFrame) (attrs0 : option attr_list)
    (repr_col0 : option bool) : frame * ListFrame :=
  let attrs0 := match attrs0 with None => attrs self | Some _ => attrs0 end in
  let repr_col0 :=
    match repr_col0 with None => repr_col self | Some b => b end in
  let df := listframe_to_frame (items self) attrs0 repr_col0 in
  (df, {| items := items self; attrs := attrs self;
          repr_col := repr_col self; _cache_df := Some df |}).

Definition mutation_methods : list string :=
  [ "append"; "__setitem__"; "__delitem__"; "sort"; "extend"; "insert";
    "pop"; "remove"; "reverse" ]%string.

(** A method as the class holds it: arguments and instance to the
    outcome of the call (every wrapper returns [None]) and the instance
    afterwards. *)
Definition bound_method : Type :=
  list pyarg -> ListFrame -> result unit * ListFrame.

(** [_binder(method)]: clear the cache, then run the list's own method. *)
Definition _binder (method : string) : bound_method :=
  fun args self =>
    let self := {| items := items self; attrs := attrs self;
                   repr_col := repr_col self; _cache_df := None |} in
    match list_method method args (items self) with
    | Ok items' =>
        (Ok tt, {| items := items'; attrs := attrs self;
                   repr_col := repr_col self;
                   _cache_df := _cache_df self |})
    | Raise e => (Raise e, self)
    end.

(** [setattr(ListFrame, method, f)] on the class's method table *)
Definition setattr (cls : list (string * bound_method)) (method : string)
    (f : bound_method) : list (string * bound_method) :=
  (method, f) :: filter (fun p => negb (String.eqb (fst p) method)) cls.

(** The table after [for method in ListFrame.mutation_methods:
    setattr(ListFrame, method, _binder(method))] *)
Definition ListFrame_methods : list (string * bound_method) :=
  fold_left (fun cls method => setattr cls method (_binder method))
            mutation_methods [].

Fixpoint getattr (cls : list (string * bound_method)) (method : string)
  : option bound_method :=
  match cls with
  | [] => None
  | (m, f) :: cls' => if String.eqb m method then Some f else getattr cls' method
  end.

(** A method call on an instance: the class's own method when it has one, the
    built-in list's otherwise, which changes the items and leaves the
    attributes alone ([lf += l] is [lf = lf.__iadd__(l)], and [__iadd__]
    returns the list itself). The value an inherited method returns is
    not kept. *)
Definition call (self : ListFrame) (method : string) (args : list pyarg)
  : result unit * ListFrame :=
  match getattr ListFrame_methods method with
  | Some f => f args self
  | None =>
      match list_method method args (items self) with
      | Ok items' =>
          (Ok tt, {| items := items'; attrs := attrs self;
                     repr_col := repr_col self;
                     _cache_df := _cache_df self |})
      | Raise e => (Raise e, self)
      end
  end.

End ListFrameDef.

(** ** Sequences with NaN cells inserted *)

(** [nan_inserted s s']: [s'] is [s] with NaN cells inserted at any
    positions. *)
Inductive nan_inserted : list float -> list float -> Prop :=
| ni_nil : nan_inserted [] []
| ni_nan s s' : nan_inserted s s' -> nan_inserted s (NaN :: s')
| ni_keep x s s' : nan_inserted s s' -> nan_inserted (x :: s) (x :: s').

(** ** What the row-wise driver writes *)

(** A row result written left-aligned into [cols] cells, NaN after it. *)
Definition pad (cols : nat) (r : list float) : list float :=
  r ++ repeat NaN (cols - length r).

(** ** The row-wise drivers of positions and labels (topper.py) *)

(** A 2-D array of cells of type [A], and a table over it. *)
Record array2 (A : Type) : Type := {
  a_shape : nat * nat;
  a_data : list (list A)
}.
Arguments a_shape {A} _.
Arguments a_data {A} _.

Record Frame (A : Type) : Type := {
  f_index : list label;
  f_columns : list label;
  f_values : list (list A)
}.
Arguments f_index {A} _.
Arguments f_columns {A} _.
Arguments f_values {A} _.

(** [np.ndarray((rows, cols), dtype=int)]: the cells of a fresh array are
    whatever the memory held, here [0]; [topargn_df] overwrites every row
    whole before it returns the array. *)
Definition np_ndarray_int (rows cols : nat) : array2 nat :=
  {| a_shape := (rows, cols); a_data := repeat (repeat 0%nat cols) rows |}.

(** [row[:] = src] over a whole row of [cols] cells: cell by cell when the
    source has [cols] cells, a one-cell source repeated, [ValueError] for
    any other source. *)
Definition setrow {A : Type} (cols : nat) (src : list A) : result (list A) :=
  if Nat.eqb (length src) cols then Ok src
  else match src with
       | [x] => Ok (repeat x cols)
       | _ => Raise ValueError
       end.

(** [ret[i] = src] *)
Definition setitem_whole_row {A : Type} (ret : array2 A) (i : nat)
    (src : list A) : result (array2 A) :=
  match nth_error (a_data ret) i with
  | None => Raise IndexError
  | Some _ =>
      row' <- setrow (snd (a_shape ret)) src ;;
      Ok {| a_shape := a_shape ret;
            a_data := replace_nth i row' (a_data ret) |}
  end.

(** [pd.DataFrame(ret, index=index)] for an array of any cells *)
Definition pd_DataFrame_of {A : Type} (ret : array2 A) (index : list label)
  : result (Frame A) :=
  if Nat.eqb (length index) (fst (a_shape ret)) then
    Ok {| f_index := index;
          f_columns := RangeIndex (snd (a_shape ret));
          f_values := a_data ret |}
  else Raise ValueError.

(** [labels[ret]]: the labels at the positions of a 2-D array, in the
    array's shape; [IndexError] for a position past the last label. *)
Fixpoint take_rows {A : Type} (labels : list A) (rows : list (list nat))
  : result (list (list A)) :=
  match rows with
  | [] => Ok []
  | row :: rows' =>
      r <- take labels row ;;
      rs <- take_rows labels rows' ;;
      Ok (r :: rs)
  end.

Definition index_getitem (labels : list label) (ret : array2 nat)
  : result (array2 label) :=
  rows <- take_rows labels (a_data ret) ;;
  Ok {| a_shape := a_shape ret; a_data := rows |}.

(** [values[i][positions[i]]] for every row [i] *)
Fixpoint take_each (vals : list (list float)) (positions : list (list nat))
  : result (list (list float)) :=
  match vals, positions with
  | row :: vals', pos :: positions' =>
      r <- take row pos ;;
      rs <- take_each vals' positions' ;;
      Ok (r :: rs)
  | _, _ => Ok []
  end.

Section TopperRows.

Variable argpartsort : list float -> Z -> result (list nat).
Variable argsort : list float -> list nat.

(** The loop [for i in range(rows)] of [topargn_df] *)
Fixpoint topargn_df_loop (range : list nat) (vals : list (list float)) (N : Z)
    (ascending : option bool) (ret : array2 nat) : result (array2 nat) :=
  match range with
  | [] => Ok ret
  | i :: range' =>
      match nth_error vals i with
      | None => Raise IndexError
      | Some row =>
          r <- topargn argpartsort argsort row N ascending ;;
          ret <- setitem_whole_row ret i r ;;
          topargn_df_loop range' vals N ascending ret
      end
  end.

(** [topargn_df(self, N, ascending=None, wrap=True)] *)
Definition topargn_df (self : DataFrame) (N : Z) (ascending : option bool)
    (wrap : bool) : result (Frame nat + array2 nat) :=
  let vals := values self in
  let rows := length vals in
  let ret := np_ndarray_int rows (Z.to_nat (Z.abs N)) in
  ret <- topargn_df_loop (seq 0 rows) vals N ascending ret ;;
  if wrap then
    df <- pd_DataFrame_of ret (index self) ;; Ok (inl df)
  else Ok (inr ret).

(** [topindexn_df(self, N, ascending=None)]: [topargn_df] is called with
    [wrap=False], so it hands back the bare array. *)
Definition topindexn_df (self : DataFrame) (N : Z) (ascending : option bool)
  : result (Frame label) :=
  ret <- topargn_df self N ascending false ;;
  match ret with
  | inr ret =>
      ret <- index_getitem (columns self) ret ;;
      pd_DataFrame_of ret (index self)
  | inl _ => Raise TypeError
  end.

End TopperRows.

(** A request [bn_topargn] serves on a sequence: fewer of the largest
    numbers than there are, or no more of the smallest than there are. *)
Definition served (N : Z) (row : list float) : Prop :=
  0 < N < len (dropna row) \/ - len (dropna row) <= N < 0.

(** ** list_frame.py: the projection of a list of objects to a table *)

(** What an attrs list names a column getter with: an attribute path, a
    callable (known by its identity), or the built-in [repr]. *)
Inductive attr : Type :=
| Name (s : string)
| Func (id : nat)
| Repr.

(** An item of an attrs list: [attr], or the tuple [(col, attr)]. Column
    keys are of the same kinds as the getters, since a plain item is its
    own key. *)
Inductive entry : Type :=
| Plain (a : attr)
| Pair (col : attr) (a : attr).

Definition attr_eqb (a b : attr) : bool :=
  match a, b with
  | Name s, Name t => String.eqb s t
  | Func i, Func j => Nat.eqb i j
  | Repr, Repr => true
  | _, _ => false
  end.

(** An [OrderedDict]: keys in the order they were first set. *)
Fixpoint od_set {V : Type} (d : list (attr * V)) (k : attr) (v : V)
  : list (attr * V) :=
  match d with
  | [] => [(k, v)]
  | (k', v') :: d' =>
      if attr_eqb k' k then (k', v) :: d' else (k', v') :: od_set d' k v
  end.

Fixpoint od_get {V : Type} (d : list (attr * V)) (k : attr) : option V :=
  match d with
  | [] => None
  | (k', v) :: d' => if attr_eqb k' k then Some v else od_get d' k
  end.

(** The column key and the getter an item stands for, before the special
    cases. *)
Definition col_of (e : entry) : attr :=
  match e with
  | Plain a => a
  | Pair col _ => col
  end.

Definition attr_of (e : entry) : attr :=
  match e with
  | Plain a => a
  | Pair _ a => a
  end.

(** The special cases of [_process_attrs]: ['class_name'], then ['repr'] *)
Definition special_case (a : attr) : attr :=
  let a := if attr_eqb a (Name "class_name")
           then Name "__class__.__name__" else a in
  if attr_eqb a (Name "repr") then Repr else a.

(** [_process_attrs(attrs)] *)
Definition _process_attrs (attrs : list entry) : list (attr * attr) :=
  fold_left (fun new_attrs e =>
               od_set new_attrs (col_of e) (special_case (attr_of e)))
            attrs [].

(** The keys of a list in the order of their first occurrence, those
    already [seen] left out. *)
Fixpoint first_seen (seen : list attr) (l : list attr) : list attr :=
  match l with
  | [] => []
  | x :: l' =>
      if existsb (attr_eqb x) seen then first_seen seen l'
      else x :: first_seen (x :: seen) l'
  end.

(** [map(f, objects)] of Python 2, which builds the list at once: the
    first exception of [f] comes out. *)
Fixpoint mapM {A B : Type} (f : A -> result B) (l : list A) : result (list B) :=
  match l with
  | [] => Ok []
  | x :: l' => y <- f x ;; ys <- mapM f l' ;; Ok (y :: ys)
  end.

(** A table of Python values, as [pd.DataFrame(sdict)] holds it: row
    labels, column keys, and the cells column by column. *)
Record ObjectFrame (value : Type) : Type := {
  o_index : list label;
  o_columns : list attr;
  o_cells : list (list value)
}.
Arguments o_index {value} _.
Arguments o_columns {value} _.
Arguments o_cells {value} _.

(** [pd.DataFrame()] *)
Definition empty_frame {value : Type} : ObjectFrame value :=
  {| o_index := []; o_columns := []; o_cells := [] |}.

(** [pd.DataFrame(sdict)] for an ordered dict of lists: the rows are
    numbered; columns of different lengths are a [ValueError]. *)
Definition pd_DataFrame_dict {value : Type} (sdict : list (attr * list value))
  : result (ObjectFrame value) :=
  match sdict with
  | [] => Ok empty_frame
  | (_, c0) :: _ =>
      if forallb (fun p => Nat.eqb (length (snd p)) (length c0)) sdict then
        Ok {| o_index := RangeIndex (length c0);
              o_columns := map fst sdict;
              o_cells := map snd sdict |}
      else Raise ValueError
  end.

Section Projection.

(** The objects of the list and the values of their attributes; what
    [operator.attrgetter(attr)(obj)], [repr(obj)], a callable given as a
    getter and [obj._frame_cols] give, each able to raise. *)
Variable object : Type.
Variable value : Type.
Variable py_None : value.
Variable attrgetter : string -> object -> result value.
Variable py_repr : object -> result value.
Variable callables : nat -> object -> result value.
Variable frame_cols : object -> result (list entry).

(** [_getter(obj, attr)]: the bare [except] turns any exception into
    [None]. *)
Definition _getter (obj : object) (attr : string) : value :=
  match attrgetter attr obj with
  | Ok v => v
  | Raise _ => py_None
  end.

(** [_column_picker(attr, objects)]: a callable is mapped as it is, a
    name through [_getter]. *)
Definition _column_picker (a : attr) (objects : list object)
  : result (list value) :=
  match a with
  | Name s => mapM (fun obj => Ok (_getter obj s)) objects
  | Func id => mapM (callables id) objects
  | Repr => mapM py_repr objects
  end.

(** The loop [for col, attr in attrs.items()] of [listframe_to_frame] *)
Fixpoint pick_columns (items : list (attr * attr)) (lst : list object)
    (sdict : list (attr * list value)) : result (list (attr * list value)) :=
  match items with
  | [] => Ok sdict
  | (col, a) :: items' =>
      data <- _column_picker a lst ;;
      pick_columns items' lst (od_set sdict col data)
  end.

(** [listframe_to_frame(lst, attrs=None, repr_col=False)]. Python lists
    are shared objects and [attrs.append('repr')] changes the list the
    caller passed (or [test._frame_cols]): the second component is what
    that list holds when the call ends, returning or raising. *)
Definition listframe_to_frame (lst : list object)
    (attrs : option (list entry)) (repr_col : bool)
  : result (ObjectFrame value) * option (list entry) :=
  match lst with
  | [] => (Ok empty_frame, attrs)
  | test :: _ =>
      match (match attrs with
             | None => frame_cols test
             | Some attrs => Ok attrs
             end) with
      | Raise e => (Raise e, attrs)
      | Ok attrs =>
          let attrs :=
            if repr_col then attrs ++ [Plain (Name "repr")] else attrs in
          (sdict <- pick_columns (_process_attrs attrs) lst [] ;;
           pd_DataFrame_dict sdict,
           Some attrs)
      end
  end.

(** The cells of a column whose getter is a name: each object's attribute
    as [_getter] reads it. *)
Definition name_cells (lst : list object) (a : attr) : list value :=
  match a with
  | Name s => map (fun obj => _getter obj s) lst
  | _ => []
  end.

End Projection.
(** ** Sorting *)

Lemma fle_refl x : fle x x.
Proof. destruct x; unfold fle; simpl; auto. apply Z.leb_refl. Qed.

Lemma fle_trans x y z : fle x y -> fle y z -> fle x z.
Proof.
  unfold fle; destruct x, y, z; simpl; try congruence.
  rewrite !Z.leb_le; lia.
Qed.

Lemma fle_antisym x y : fle x y -> fle y x -> x = y.
Proof.
  unfold fle; destruct x, y; simpl; try congruence.
  rewrite !Z.leb_le; intros; f_equal; lia.
Qed.

Lemma fle_total x y : fleb x y = false -> fle y x.
Proof.
  unfold fle; destruct x, y; simpl; try congruence.
  rewrite Z.leb_gt, Z.leb_le; lia.
Qed.

Lemma insert_sorted_perm x l : Permutation (insert_sorted x l) (x :: l).
Proof.
  induction l as [|y l IH]; simpl; [reflexivity|].
  destruct (fleb x y); [reflexivity|].
  rewrite IH. apply perm_swap.
Qed.

Lemma np_sort_perm l : Permutation (np_sort l) l.
Proof.
  induction l as [|x l IH]; simpl; [constructor|].
  rewrite insert_sorted_perm. now constructor.
Qed.

Lemma np_sort_length l : length (np_sort l) = length l.
Proof. apply Permutation_length, np_sort_perm. Qed.

Lemma insert_sorted_sorted x l :
  StronglySorted fle l -> StronglySorted fle (insert_sorted x l).
Proof.
  induction 1 as [|y l Hs IH Hall]; simpl.
  - repeat constructor.
  - destruct (fleb x y) eqn:E.
    + constructor; [now constructor|].
      constructor; [exact E|].
      eapply Forall_impl; [|exact Hall].
      intros z Hz. eapply fle_trans; eauto.
    + constructor; [exact IH|].
      eapply Permutation_Forall; [symmetry; apply insert_sorted_perm|].
      constructor; [now apply fle_total|exact Hall].
Qed.

Lemma np_sort_sorted l : StronglySorted fle (np_sort l).
Proof.
  induction l; simpl; [constructor|now apply insert_sorted_sorted].
Qed.

(** A list has one ascending rearrangement. *)
Lemma sorted_perm_eq l1 : forall l2,
  StronglySorted fle l1 -> StronglySorted fle l2 -> Permutation l1 l2 ->
  l1 = l2.
Proof.
  induction l1 as [|x l1 IH]; intros l2 H1 H2 HP.
  - apply Permutation_nil in HP. now subst.
  - destruct l2 as [|y l2].
    + symmetry in HP. apply Permutation_nil in HP. discriminate.
    + inversion H1 as [|? ? Hs1 Ha1]; inversion H2 as [|? ? Hs2 Ha2]; subst.
      assert (x = y) as ->.
      { assert (In x (y :: l2)) as Hx
          by (eapply Permutation_in; [exact HP|now left]).
        assert (In y (x :: l1)) as Hy
          by (eapply Permutation_in; [symmetry; exact HP|now left]).
        destruct Hx as [->|Hx]; [reflexivity|].
        destruct Hy as [->|Hy]; [reflexivity|].
        rewrite Forall_forall in Ha1, Ha2.
        apply fle_antisym; auto. }
      f_equal. apply IH; auto. eapply Permutation_cons_inv; eauto.
Qed.

Lemma np_sort_unique l s :
  StronglySorted fle s -> Permutation s l -> np_sort l = s.
Proof.
  intros Hs Hp. apply sorted_perm_eq; auto using np_sort_sorted.
  rewrite np_sort_perm. now symmetry.
Qed.

Lemma np_sort_of_perm l1 l2 : Permutation l1 l2 -> np_sort l1 = np_sort l2.
Proof.
  intros Hp. apply np_sort_unique; [apply np_sort_sorted|].
  rewrite np_sort_perm. now symmetry.
Qed.

Lemma sorted_app a b :
  StronglySorted fle a -> StronglySorted fle b ->
  (forall x y, In x a -> In y b -> fle x y) ->
  StronglySorted fle (a ++ b).
Proof.
  induction 1 as [|x a Hs IH Hall]; intros Hb Hab; simpl; [exact Hb|].
  constructor.
  - apply IH; auto. intros; apply Hab; simpl; auto.
  - apply Forall_app; split; [exact Hall|].
    apply Forall_forall. intros y Hy. apply Hab; simpl; auto.
Qed.

Lemma np_sort_app a b :
  (forall x y, In x a -> In y b -> fle x y) ->
  np_sort (a ++ b) = np_sort a ++ np_sort b.
Proof.
  intros Hab. apply np_sort_unique.
  - apply sorted_app; auto using np_sort_sorted.
    intros x y Hx Hy. apply Hab.
    + eapply Permutation_in; [apply np_sort_perm|exact Hx].
    + eapply Permutation_in; [apply np_sort_perm|exact Hy].
  - apply Permutation_app; apply np_sort_perm.
Qed.

(** Sorting either side of a partition gives that side of the sorted array. *)
Lemma split_at_sorted (n : nat) out arr :
  Permutation out arr -> split_at n out -> (n <= length arr)%nat ->
  np_sort (firstn n out) = firstn n (np_sort arr)
  /\ np_sort (skipn n out) = skipn n (np_sort arr).
Proof.
  intros Hp Hs Hn.
  assert (np_sort arr = np_sort (firstn n out) ++ np_sort (skipn n out)) as E.
  { rewrite <- np_sort_app by exact Hs.
    rewrite firstn_skipn. symmetry. now apply np_sort_of_perm. }
  assert (length (np_sort (firstn n out)) = n) as L.
  { rewrite np_sort_length, length_firstn.
    rewrite (Permutation_length Hp). lia. }
  rewrite E. split.
  - rewrite firstn_app, L, Nat.sub_diag. simpl. rewrite app_nil_r.
    symmetry. apply firstn_all2. lia.
  - rewrite skipn_app, L, Nat.sub_diag. simpl.
    rewrite (skipn_all2 (np_sort (firstn n out))) by lia. reflexivity.
Qed.

(** ** Masks, slices and position arrays *)

Lemma mask_index_dropna arr :
  mask_index arr (np_not (np_isnan arr)) = dropna arr.
Proof.
  induction arr as [|x arr IH]; simpl; [reflexivity|].
  destruct (isnan x); simpl; now rewrite IH.
Qed.

Lemma dropna_no_nan arr : no_nan (dropna arr).
Proof.
  apply Forall_forall. intros x Hx. apply filter_In in Hx.
  destruct Hx as [_ Hx]. now destruct (isnan x).
Qed.

Lemma dropna_id arr : no_nan arr -> dropna arr = arr.
Proof.
  induction 1 as [|x arr Hx _ IH]; simpl; [reflexivity|].
  now rewrite Hx, IH.
Qed.

Lemma getslice_from {A : Type} (l : list A) (n : Z) :
  0 <= n -> getslice l (Slice (Some n) None) = skipn (Z.to_nat n) l.
Proof.
  intros Hn. unfold getslice, slice_bounds, clip_index. simpl.
  destruct (Z.ltb_spec n 0); [lia|].
  rewrite firstn_all2 by (rewrite length_skipn; lia).
  destruct (Nat.le_gt_cases (length l) (Z.to_nat n)).
  - rewrite Nat.min_l by lia. now rewrite !skipn_all2 by lia.
  - now rewrite Nat.min_r by lia.
Qed.

Lemma getslice_to {A : Type} (l : list A) (n : Z) :
  0 <= n -> getslice l (Slice None (Some n)) = firstn (Z.to_nat n) l.
Proof.
  intros Hn. unfold getslice, slice_bounds, clip_index. simpl.
  destruct (Z.ltb_spec n 0); [lia|].
  rewrite Nat.sub_0_r.
  destruct (Nat.le_gt_cases (length l) (Z.to_nat n)).
  - rewrite Nat.min_l by lia. now rewrite !firstn_all2 by lia.
  - now rewrite Nat.min_r by lia.
Qed.

(** ** [bn_topn] computes [selected], whatever partial sort it is given *)

Section TopnFacts.

Variable partsort : list float -> Z -> result (list float).
Hypothesis partsort_spec : partsort_contract partsort.

Lemma bn_topn_selected arr N ascending :
  bn_topn partsort arr N ascending
  = Ok (orient (resolve_ascending N ascending) (selected arr N)).
Proof.
  unfold bn_topn, selected. rewrite mask_index_dropna.
  fold (resolve_ascending N ascending).
  set (a := dropna arr). set (asc := resolve_ascending N ascending).
  assert (no_nan a) as Ha by apply dropna_no_nan.
  assert (length (np_sort a) = length a) as Hl by apply np_sort_length.
  assert (forall l : list float,
             (if negb asc then rev l else l) = orient asc l) as Ho
      by (intros; now destruct asc).
  unfold len. destruct (Z.gtb_spec N 0) as [Hpos|Hneg].
  - (* the N largest *)
    destruct (Z.eqb_spec
                (Z.of_nat (length a)
                 - Z.abs (Z.min (Z.abs N) (Z.of_nat (length a)))) 0)
      as [E|E]; simpl.
    + rewrite Ho. do 2 f_equal.
      replace (length (np_sort a) - Z.to_nat N)%nat with 0%nat by lia.
      reflexivity.
    + set (n := Z.of_nat (length a)
                - Z.abs (Z.min (Z.abs N) (Z.of_nat (length a)))) in *.
      destruct (partsort_ok _ partsort_spec a n Ha) as (out & -> & Hp & Hs);
        [unfold len; lia|].
      simpl. rewrite Ho. do 2 f_equal.
      rewrite getslice_from by lia.
      destruct (split_at_sorted (Z.to_nat n) out a Hp Hs) as [_ ->]; [lia|].
      f_equal. lia.
  - (* the |N| smallest *)
    destruct (Z.eqb_spec (Z.min (Z.abs N) (Z.of_nat (length a))) 0)
      as [E|E]; simpl.
    + rewrite Ho. do 2 f_equal.
      destruct (Z.eqb_spec N 0) as [_|HN]; [reflexivity|].
      assert (length a = 0%nat) as L by lia.
      destruct a; [simpl; now rewrite firstn_nil|discriminate].
    + set (n := Z.min (Z.abs N) (Z.of_nat (length a))) in *.
      destruct (partsort_ok _ partsort_spec a n Ha) as (out & -> & Hp & Hs);
        [unfold len; lia|].
      simpl. rewrite Ho. do 2 f_equal.
      rewrite getslice_to by lia.
      destruct (split_at_sorted (Z.to_nat n) out a Hp Hs) as [-> _]; [lia|].
      destruct (Z.eqb_spec N 0) as [HN|HN]; [lia|].
      destruct (Z.le_gt_cases (Z.abs N) (Z.of_nat (length a))).
      * f_equal. lia.
      * rewrite !firstn_all2 by lia. reflexivity.
Qed.

End TopnFacts.

(** ** The reference instance meets the contract *)

Lemma in_skipn {A : Type} (n : nat) (l : list A) x : In x (skipn n l) -> In x l.
Proof.
  intros H. rewrite <- (firstn_skipn n l). apply in_or_app. now right.
Qed.

Lemma in_firstn {A : Type} (n : nat) (l : list A) x : In x (firstn n l) -> In x l.
Proof.
  intros H. rewrite <- (firstn_skipn n l). apply in_or_app. now left.
Qed.

Lemma map_fst_combine {A B : Type} (l : list A) : forall l' : list B,
  length l = length l' -> map fst (combine l l') = l.
Proof.
  induction l as [|x l IH]; intros [|y l'] H; simpl in *; try congruence.
  f_equal. apply IH. congruence.
Qed.

Lemma map_snd_combine {A B : Type} (l : list A) : forall l' : list B,
  length l = length l' -> map snd (combine l l') = l'.
Proof.
  induction l as [|x l IH]; intros [|y l'] H; simpl in *; try congruence.
  f_equal. apply IH. congruence.
Qed.

Lemma sorted_split_at (n : nat) l : StronglySorted fle l -> split_at n l.
Proof.
  intros Hs. revert n.
  induction Hs as [|x l Hs IH Hall]; intros n a b Ha Hb.
  - rewrite firstn_nil in Ha. destruct Ha.
  - destruct n as [|n]; simpl in Ha, Hb; [destruct Ha|].
    destruct Ha as [<-|Ha].
    + rewrite Forall_forall in Hall. apply Hall.
      eapply in_skipn. exact Hb.
    + eapply IH; eauto.
Qed.

Lemma nb_check_ok {A B : Type} (arr : list A) (n : Z) (e f : B) :
  1 <= n <= len arr -> nb_check arr n e f = Ok f.
Proof.
  unfold nb_check. intros H.
  destruct (Z.leb_spec 1 n); [|lia].
  destruct (Z.leb_spec n (len arr)); [|lia]. reflexivity.
Qed.

Lemma nb_check_outside {A B : Type} (arr : list A) (n : Z) (e f : B) :
  n < 1 \/ len arr < n ->
  nb_check arr n e f
  = if negb (fits_c_int n) then Raise OverflowError
    else match arr with
         | [] => Ok e
         | _ :: _ => Raise ValueError
         end.
Proof.
  unfold nb_check. intros H.
  destruct (Z.leb_spec 1 n); [|reflexivity].
  destruct (Z.leb_spec n (len arr)); [lia|reflexivity].
Qed.

Lemma nb_check_range {A B : Type} (arr : list A) (n : Z) (e f : B) :
  arr <> [] -> n < 1 \/ len arr < n -> fits_c_int n = true ->
  nb_check arr n e f = Raise ValueError.
Proof.
  intros Hne H Hc. rewrite nb_check_outside by exact H. rewrite Hc. simpl.
  destruct arr; [congruence|reflexivity].
Qed.

Lemma nb_check_overflow {A B : Type} (arr : list A) (n : Z) (e f : B) :
  n < 1 \/ len arr < n -> fits_c_int n = false ->
  nb_check arr n e f = Raise OverflowError.
Proof.
  intros H Hc. rewrite nb_check_outside by exact H. now rewrite Hc.
Qed.

Lemma ref_partsort_contract : partsort_contract ref_partsort.
Proof.
  split; intros arr n.
  - intros _ Hn. exists (np_sort arr). unfold ref_partsort.
    rewrite nb_check_ok by exact Hn.
    split; [reflexivity|]. split; [apply np_sort_perm|].
    apply sorted_split_at, np_sort_sorted.
  - intros. now apply nb_check_range.
  - intros. now apply nb_check_overflow.
Qed.

Lemma insert_by_value_perm p l : Permutation (insert_by_value p l) (p :: l).
Proof.
  induction l as [|q l IH]; simpl; [reflexivity|].
  destruct (fleb (fst p) (fst q)); [reflexivity|].
  rewrite IH. apply perm_swap.
Qed.

Lemma sort_by_value_perm l : Permutation (sort_by_value l) l.
Proof.
  induction l as [|p l IH]; simpl; [constructor|].
  rewrite insert_by_value_perm. now constructor.
Qed.

Lemma insert_by_value_fst p l :
  map fst (insert_by_value p l) = insert_sorted (fst p) (map fst l).
Proof.
  induction l as [|q l IH]; simpl; [reflexivity|].
  destruct (fleb (fst p) (fst q)); simpl; [reflexivity|now rewrite IH].
Qed.

Lemma sort_by_value_fst l : map fst (sort_by_value l) = np_sort (map fst l).
Proof.
  induction l as [|p l IH]; simpl; [reflexivity|].
  now rewrite insert_by_value_fst, IH.
Qed.

Lemma combine_seq_nth (arr : list float) : forall k p,
  In p (combine arr (seq k (length arr))) ->
  (k <= snd p)%nat /\ nth_error arr (snd p - k) = Some (fst p).
Proof.
  induction arr as [|x arr IH]; intros k p Hp; simpl in Hp; [destruct Hp|].
  destruct Hp as [<-|Hp]; simpl.
  - rewrite Nat.sub_diag. auto.
  - apply IH in Hp. destruct Hp as [Hk Hn]. split; [lia|].
    replace (snd p - k)%nat with (S (snd p - S k)) by lia. exact Hn.
Qed.

Lemma ref_argsort_values arr :
  values_at arr (ref_argsort arr) = np_sort arr.
Proof.
  unfold values_at, ref_argsort.
  set (ps := combine arr (seq 0 (length arr))).
  assert (map fst ps = arr) as E
      by (apply map_fst_combine; now rewrite length_seq).
  replace (np_sort arr) with (np_sort (map fst ps)) by now rewrite E.
  rewrite <- sort_by_value_fst.
  rewrite map_map. apply map_ext_in. intros p Hp.
  assert (In p ps) as Hp'
      by (eapply Permutation_in; [apply sort_by_value_perm|exact Hp]).
  apply combine_seq_nth in Hp'. destruct Hp' as [_ Hn].
  rewrite Nat.sub_0_r in Hn. now apply nth_error_nth.
Qed.

Lemma ref_argsort_perm arr :
  Permutation (ref_argsort arr) (seq 0 (length arr)).
Proof.
  unfold ref_argsort. rewrite sort_by_value_perm.
  rewrite map_snd_combine by now rewrite length_seq. reflexivity.
Qed.

Lemma ref_argsort_contract : argsort_contract ref_argsort.
Proof.
  split; intros arr _.
  - apply ref_argsort_perm.
  - rewrite ref_argsort_values. apply np_sort_sorted.
Qed.

Lemma ref_argpartsort_contract : argpartsort_contract ref_argpartsort.
Proof.
  split; intros arr n.
  - intros _ Hn. exists (ref_argsort arr). unfold ref_argpartsort.
    rewrite nb_check_ok by exact Hn.
    split; [reflexivity|]. split; [apply ref_argsort_perm|].
    rewrite ref_argsort_values. apply sorted_split_at, np_sort_sorted.
  - intros. now apply nb_check_range.
  - intros. now apply nb_check_overflow.
Qed.

(** ** Properties of [bn_topn] *)

Lemma selected_sorted arr N : StronglySorted fle (selected arr N).
Proof.
  unfold selected.
  pose proof (np_sort_sorted (dropna arr)) as Hs.
  set (s := np_sort (dropna arr)) in *.
  assert (forall n, StronglySorted fle (skipn n s)) as Hk.
  { intros n. rewrite <- (firstn_skipn n s) in Hs.
    clear -Hs. induction (firstn n s) as [|x l IH]; [exact Hs|].
    inversion Hs; auto. }
  assert (forall n, StronglySorted fle (firstn n s)) as Hf.
  { clear -Hs. induction Hs as [|x l Hs IH Hall]; intros n.
    - rewrite firstn_nil. constructor.
    - destruct n; simpl; constructor; auto.
      apply Forall_forall. intros y Hy. rewrite Forall_forall in Hall.
      eapply Hall, in_firstn, Hy. }
  destruct (N >? 0); [apply Hk|]. destruct (N =? 0); auto.
Qed.

Lemma selected_length arr N :
  len (selected arr N)
  = if N =? 0 then len (dropna arr) else Z.min (Z.abs N) (len (dropna arr)).
Proof.
  unfold selected, len.
  pose proof (np_sort_length (dropna arr)) as L.
  set (s := np_sort (dropna arr)) in *.
  destruct (Z.gtb_spec N 0), (Z.eqb_spec N 0); try lia.
  - rewrite length_skipn. lia.
  - rewrite length_firstn. lia.
Qed.

Lemma selected_no_nan arr N : no_nan (selected arr N).
Proof.
  assert (no_nan (np_sort (dropna arr))) as H.
  { eapply Permutation_Forall; [symmetry; apply np_sort_perm|].
    apply dropna_no_nan. }
  unfold no_nan in *. rewrite Forall_forall in *.
  intros x Hx. apply H. unfold selected in Hx.
  destruct (N >? 0); [eapply in_skipn, Hx|].
  destruct (N =? 0); [exact Hx|eapply in_firstn, Hx].
Qed.

(** C3: for every sequence, [bn_topn(s, 0, None)] does not raise and
    returns all the non-NaN values of [s] (a rearrangement of them, none
    dropped), in ascending order. No assumption on [partsort] is needed:
    the [N == 0] branch does not call it. *)
Theorem bn_topn_zero_returns_all
    (partsort : list float -> Z -> result (list float)) (s : list float) :
  exists r, bn_topn partsort s 0 None = Ok r
            /\ Permutation r (dropna s)
            /\ StronglySorted fle r.
Proof.
  exists (np_sort (dropna s)). split; [|split].
  - unfold bn_topn. rewrite mask_index_dropna. simpl.
    rewrite Z.min_l by (unfold len; lia). reflexivity.
  - apply np_sort_perm.
  - apply np_sort_sorted.
Qed.

(** The result for [N = 0], whatever [ascending] is. *)
Lemma bn_topn_zero
    (partsort : list float -> Z -> result (list float)) s ascending :
  bn_topn partsort s 0 ascending
  = Ok (orient (resolve_ascending 0 ascending) (np_sort (dropna s))).
Proof.
  unfold bn_topn. rewrite mask_index_dropna. simpl.
  rewrite Z.min_l by (unfold len; lia). simpl.
  destruct ascending as [[|]|]; reflexivity.
Qed.

(** C4, as the code has it: a request with [N = 0] returns the non-NaN
    values of the sequence, all of them (a rearrangement of them, so as
    many as the sequence has non-NaN cells), and the result is empty
    exactly when every cell of the sequence is NaN. *)
Theorem bn_topn_zero_empty_iff
    (partsort : list float -> Z -> result (list float)) s ascending :
  exists r, bn_topn partsort s 0 ascending = Ok r
            /\ Permutation r (dropna s)
            /\ length r = length (dropna s)
            /\ (r = [] <-> Forall (fun x => isnan x = true) s).
Proof.
  rewrite bn_topn_zero. eexists; split; [reflexivity|].
  assert (Permutation
            (orient (resolve_ascending 0 ascending) (np_sort (dropna s)))
            (dropna s)) as HP.
  { unfold orient. destruct (resolve_ascending 0 ascending).
    - apply np_sort_perm.
    - rewrite <- Permutation_rev. apply np_sort_perm. }
  split; [exact HP|].
  pose proof (Permutation_length HP) as L.
  split; [exact L|].
  rewrite <- length_zero_iff_nil, L, length_zero_iff_nil.
  clear L HP. induction s as [|x s IH]; simpl.
  - split; auto.
  - destruct x; simpl.
    + rewrite IH. split; [now constructor|now inversion 1].
    + split; [discriminate|]. inversion 1. discriminate.
Qed.

(** C4 as stated fails: with [N = 0] the two numbers of [7, NaN, 2] come
    back. *)
Lemma bn_topn_zero_not_empty :
  bn_topn ref_partsort [Num 7; NaN; Num 2] 0 None = Ok [Num 2; Num 7]
  /\ bn_topn ref_partsort [Num 7; NaN; Num 2] 0 None <> Ok [].
Proof. split; [reflexivity|discriminate]. Qed.

(** C5: on a NaN-free sequence and for [0 < N <= len(s)],
    [bn_topn(s, N, True)] returns exactly [N] values, in ascending
    order: [N] numbers (no NaN cell) taken from the sequence, each as
    often at most as the sequence holds it. *)
Theorem bn_topn_count_sorted
    (partsort : list float -> Z -> result (list float)) s N :
  partsort_contract partsort ->
  no_nan s -> 0 < N <= len s ->
  exists r, bn_topn partsort s N (Some true) = Ok r
            /\ len r = N
            /\ StronglySorted fle r
            /\ no_nan r
            /\ exists rest, Permutation s (rest ++ r).
Proof.
  intros Hc Hs HN. rewrite (bn_topn_selected _ Hc). simpl.
  eexists; split; [reflexivity|].
  split; [|split; [apply selected_sorted|split; [apply selected_no_nan|]]].
  - rewrite selected_length, (dropna_id s Hs).
    destruct (Z.eqb_spec N 0); lia.
  - unfold selected. rewrite (dropna_id s Hs).
    destruct (Z.gtb_spec N 0); [|lia].
    exists (firstn (length (np_sort s) - Z.to_nat N) (np_sort s)).
    rewrite firstn_skipn. symmetry. apply np_sort_perm.
Qed.

Lemma bn_topn_count_sorted_witness :
  exists r, bn_topn ref_partsort [Num 3; Num 1; Num 5; Num 2] 3 (Some true)
            = Ok r
            /\ len r = 3
            /\ StronglySorted fle r
            /\ no_nan r
            /\ exists rest, Permutation [Num 3; Num 1; Num 5; Num 2] (rest ++ r).
Proof.
  apply (bn_topn_count_sorted ref_partsort [Num 3; Num 1; Num 5; Num 2] 3).
  - exact ref_partsort_contract.
  - repeat constructor.
  - unfold len; simpl; lia.
Defined.

(** C6: for every sequence and every [N], both calls return, and
    [bn_topn(s, N, False)] is [bn_topn(s, N, True)] reversed. *)
Theorem bn_topn_reversal
    (partsort : list float -> Z -> result (list float)) s N :
  partsort_contract partsort ->
  exists r, bn_topn partsort s N (Some true) = Ok r
            /\ bn_topn partsort s N (Some false) = Ok (rev r).
Proof.
  intros Hc. rewrite !(bn_topn_selected _ Hc). simpl. eauto.
Qed.

Lemma bn_topn_reversal_witness :
  exists r, bn_topn ref_partsort [Num 3; NaN; Num 5; Num 2] 2 (Some true)
            = Ok r
            /\ bn_topn ref_partsort [Num 3; NaN; Num 5; Num 2] 2 (Some false)
               = Ok (rev r).
Proof.
  apply (bn_topn_reversal ref_partsort [Num 3; NaN; Num 5; Num 2] 2).
  exact ref_partsort_contract.
Defined.

Lemma nan_inserted_dropna s s' : nan_inserted s s' -> dropna s' = dropna s.
Proof.
  induction 1 as [|s s' _ IH|x s s' _ IH]; simpl; auto.
  destruct (isnan x); simpl; now rewrite IH.
Qed.

(** C7: inserting NaN cells anywhere in a sequence changes nothing in what
    [bn_topn] returns: both calls return, and return the same values in
    the same order (so the same multiset, and the same count). *)
Theorem bn_topn_nan_exclusion
    (partsort : list float -> Z -> result (list float)) s s' N ascending :
  partsort_contract partsort ->
  nan_inserted s s' ->
  exists r r', bn_topn partsort s N ascending = Ok r
               /\ bn_topn partsort s' N ascending = Ok r'
               /\ Permutation r r'
               /\ r' = r.
Proof.
  intros Hc Hi. rewrite !(bn_topn_selected _ Hc).
  unfold selected. rewrite (nan_inserted_dropna _ _ Hi).
  do 2 eexists. repeat split; reflexivity.
Qed.

Lemma bn_topn_nan_exclusion_witness :
  exists r r',
    bn_topn ref_partsort [Num 3; Num 1; Num 5] (-2) None = Ok r
    /\ bn_topn ref_partsort [NaN; Num 3; Num 1; NaN; NaN; Num 5] (-2) None
       = Ok r'
    /\ Permutation r r'
    /\ r' = r.
Proof.
  apply (bn_topn_nan_exclusion ref_partsort
           [Num 3; Num 1; Num 5] [NaN; Num 3; Num 1; NaN; NaN; Num 5]).
  - exact ref_partsort_contract.
  - repeat constructor.
Defined.

(** ** The row-wise driver [topn_df] *)

Lemma clip_index_nat (n k : nat) : clip_index n (Z.of_nat k) = Nat.min n k.
Proof.
  unfold clip_index. destruct (Z.ltb_spec (Z.of_nat k) 0); [lia|].
  now rewrite Nat2Z.id.
Qed.

Lemma skipn_repeat {A : Type} (x : A) (k n : nat) :
  skipn k (repeat x n) = repeat x (n - k).
Proof.
  revert n. induction k as [|k IH]; intros n.
  - now rewrite Nat.sub_0_r.
  - destruct n; simpl; [reflexivity|apply IH].
Qed.

(** Writing a result that fits: the row becomes the padded result. *)
Lemma setslice_to_fits (cols : nat) (r : list float) :
  (length r <= cols)%nat ->
  setslice_to (repeat NaN cols) (len r) r = Ok (pad cols r).
Proof.
  intros H. unfold setslice_to, len. rewrite repeat_length, clip_index_nat.
  rewrite Nat.min_r by exact H. rewrite Nat.eqb_refl.
  now rewrite skipn_repeat.
Qed.

Lemma replace_nth_app {A : Type} (l1 : list A) x y l2 :
  replace_nth (length l1) y (l1 ++ x :: l2) = l1 ++ y :: l2.
Proof. induction l1 as [|z l1 IH]; simpl; [reflexivity|now rewrite IH]. Qed.

Lemma nth_error_middle {A : Type} (l1 : list A) x l2 :
  nth_error (l1 ++ x :: l2) (length l1) = Some x.
Proof. induction l1 as [|z l1 IH]; simpl; [reflexivity|exact IH]. Qed.

Lemma fill_np_ndarray rows cols :
  fill (np_ndarray rows cols) NaN
  = {| shape := (rows, cols); data := repeat (repeat NaN cols) rows |}.
Proof.
  unfold fill, np_ndarray. simpl. f_equal.
  induction rows as [|rows IH]; simpl; [reflexivity|]. f_equal; [|exact IH].
  clear. induction cols as [|cols IH]; simpl; [reflexivity|now rewrite IH].
Qed.

Section TopnDfFacts.

Variable partsort : list float -> Z -> result (list float).

(** The loop, when every row result fits in [cols] cells: the rows not
    yet visited are all NaN before, and hold the padded results after. *)
Lemma topn_df_loop_fits N ascending sh cols (sel : list float -> list float) :
  forall todo pre done,
    length pre = length done ->
    Forall (fun row => bn_topn partsort row N ascending = Ok (sel row)
                       /\ (length (sel row) <= cols)%nat) todo ->
    topn_df_loop partsort (seq (length done) (length todo)) (pre ++ todo)
      N ascending
      {| shape := sh;
         data := done ++ repeat (repeat NaN cols) (length todo) |}
    = Ok {| shape := sh;
            data := done ++ map (fun row => pad cols (sel row)) todo |}.
Proof.
  induction todo as [|row todo IH]; intros pre done Hl Hall; simpl.
  - reflexivity.
  - inversion Hall as [|? ? [Hr Hfit] Hall']; subst.
    rewrite <- Hl at 1. rewrite nth_error_middle.
    unfold topn. rewrite Hr. simpl.
    unfold setitem_row. simpl. rewrite nth_error_middle.
    rewrite setslice_to_fits by exact Hfit. simpl.
    rewrite replace_nth_app.
    replace (done ++ pad cols (sel row)
                :: repeat (repeat NaN cols) (length todo))
      with ((done ++ [pad cols (sel row)])
              ++ repeat (repeat NaN cols) (length todo))
      by (rewrite <- app_assoc; reflexivity).
    replace (pre ++ row :: todo) with ((pre ++ [row]) ++ todo)
      by (rewrite <- app_assoc; reflexivity).
    replace (S (length done)) with (length (done ++ [pad cols (sel row)]))
      by (rewrite length_app; simpl; lia).
    rewrite IH; [|rewrite !length_app; simpl; lia|exact Hall'].
    rewrite <- app_assoc. reflexivity.
Qed.

(** With [N = 0] the array has no column. A row with at most one number
    leaves it as it is (nothing to write, or one cell broadcast over no
    cell); the first row with two numbers or more cannot be written. *)
Lemma setslice_to_no_column (r : list float) :
  setslice_to [] (len r) r
  = if (length r <=? 1)%nat then Ok [] else Raise ValueError.
Proof.
  unfold setslice_to, len. rewrite clip_index_nat. simpl.
  destruct r as [|x [|y r]]; reflexivity.
Qed.

Lemma topn_df_loop_no_column ascending sh :
  forall todo pre done,
    length pre = length done ->
    topn_df_loop partsort (seq (length done) (length todo)) (pre ++ todo)
      0 ascending
      {| shape := sh; data := done ++ repeat [] (length todo) |}
    = if forallb (fun row => (length (dropna row) <=? 1)%nat) todo
      then Ok {| shape := sh; data := done ++ repeat [] (length todo) |}
      else Raise ValueError.
Proof.
  induction todo as [|row todo IH]; intros pre done Hl; simpl.
  - reflexivity.
  - rewrite <- Hl at 1. rewrite nth_error_middle.
    unfold topn. rewrite bn_topn_zero. simpl.
    unfold setitem_row. simpl. rewrite nth_error_middle.
    rewrite setslice_to_no_column.
    assert (length (orient (resolve_ascending 0 ascending)
                      (np_sort (dropna row))) = length (dropna row)) as ->.
    { unfold orient. destruct (resolve_ascending 0 ascending);
        [|rewrite length_rev]; apply np_sort_length. }
    destruct (length (dropna row) <=? 1)%nat; simpl; [|reflexivity].
    rewrite replace_nth_app.
    replace (done ++ [] :: repeat [] (length todo))
      with ((done ++ [[]]) ++ repeat (@nil float) (length todo))
      by (rewrite <- app_assoc; reflexivity).
    replace (pre ++ row :: todo) with ((pre ++ [row]) ++ todo)
      by (rewrite <- app_assoc; reflexivity).
    replace (S (length done)) with (length (done ++ [@nil float]))
      by (rewrite length_app; simpl; lia).
    rewrite IH by (rewrite !length_app; simpl; lia).
    reflexivity.
Qed.

End TopnDfFacts.

Lemma dropna_length_le arr : (length (dropna arr) <= length arr)%nat.
Proof.
  induction arr as [|x arr IH]; simpl; [lia|].
  destruct (isnan x); simpl; lia.
Qed.

Lemma orient_length {A : Type} b (l : list A) : length (orient b l) = length l.
Proof. destruct b; simpl; [reflexivity|apply length_rev]. Qed.

Lemma Forall2_map_r {A B : Type} (R : A -> B -> Prop) (f : A -> B) l :
  Forall (fun x => R x (f x)) l -> Forall2 R l (map f l).
Proof. induction 1; simpl; constructor; auto. Qed.

(** C8: for a well-formed table and [N <> 0], [topn_df] returns a table
    with [min(len(columns), |N|)] columns and the row labels of the
    input; its row [i] is [bn_topn(row i, N, ascending)] followed by NaN
    cells up to the column count. *)
Theorem topn_df_padded_rows
    (partsort : list float -> Z -> result (list float)) df N ascending :
  partsort_contract partsort ->
  well_formed df -> N <> 0 ->
  exists out,
    topn_df partsort df N ascending true = Ok (inl out)
    /\ len (columns out) = Z.min (len (columns df)) (Z.abs N)
    /\ index out = index df
    /\ Forall2 (fun row orow =>
                  exists r, bn_topn partsort row N ascending = Ok r
                            /\ orow = r ++ repeat NaN
                                            (length (columns out) - length r)
                            /\ length orow = length (columns out))
               (values df) (values out).
Proof.
  intros Hc [Hrows Hcols] HN. unfold topn_df.
  set (cols := Z.to_nat (Z.min (len (columns df)) (Z.abs N))).
  set (sel := fun row => orient (resolve_ascending N ascending) (selected row N)).
  rewrite fill_np_ndarray.
  assert (Forall (fun row => bn_topn partsort row N ascending = Ok (sel row)
                             /\ (length (sel row) <= cols)%nat) (values df))
    as Hall.
  { eapply Forall_impl; [|exact Hcols]. intros row Hrow. simpl in Hrow.
    split; [apply (bn_topn_selected _ Hc)|].
    unfold sel. rewrite orient_length.
    pose proof (selected_length row N) as L.
    pose proof (dropna_length_le row) as D.
    destruct (Z.eqb_spec N 0); [contradiction|].
    unfold cols, len in *. lia. }
  pose proof (topn_df_loop_fits partsort N ascending
                (length (values df), cols) cols sel (values df) [] []
                eq_refl Hall) as Hloop.
  simpl in Hloop. rewrite Hloop. simpl.
  unfold pd_DataFrame. simpl. rewrite Hrows, Nat.eqb_refl. simpl.
  eexists; split; [reflexivity|]. simpl.
  assert (length (RangeIndex cols) = cols) as HR
      by (unfold RangeIndex; now rewrite length_map, length_seq).
  split; [unfold len; rewrite HR; unfold cols, len; lia|].
  split; [reflexivity|].
  apply Forall2_map_r. eapply Forall_impl; [|exact Hall].
  intros row [Hr Hfit]. simpl. exists (sel row). rewrite HR.
  split; [exact Hr|]. split; [reflexivity|].
  unfold pad. rewrite length_app, repeat_length. lia.
Qed.

Lemma topn_df_padded_rows_witness :
  exists out,
    topn_df ref_partsort
      {| index := [LStr "a"; LStr "b"];
         columns := [LInt 0; LInt 1; LInt 2; LInt 3];
         values := [[Num 3; Num 1; Num 5; Num 2];
                    [Num 9; NaN; Num 4; Num 0]] |} 2 None true
    = Ok (inl out)
    /\ len (columns out) = Z.min (len [LInt 0; LInt 1; LInt 2; LInt 3]) (Z.abs 2)
    /\ index out = [LStr "a"; LStr "b"]
    /\ Forall2 (fun row orow =>
                  exists r, bn_topn ref_partsort row 2 None = Ok r
                            /\ orow = r ++ repeat NaN
                                            (length (columns out) - length r)
                            /\ length orow = length (columns out))
               [[Num 3; Num 1; Num 5; Num 2]; [Num 9; NaN; Num 4; Num 0]]
               (values out).
Proof.
  apply (topn_df_padded_rows ref_partsort
           {| index := [LStr "a"; LStr "b"];
              columns := [LInt 0; LInt 1; LInt 2; LInt 3];
              values := [[Num 3; Num 1; Num 5; Num 2];
                         [Num 9; NaN; Num 4; Num 0]] |} 2 None).
  - exact ref_partsort_contract.
  - split; [reflexivity|repeat constructor].
  - discriminate.
Defined.

(** C10, as the code has it: with [N = 0] the output has no column, and
    [topn_df] raises [ValueError] as soon as one row holds two non-NaN
    values or more. *)
Theorem topn_df_zero_raises
    (partsort : list float -> Z -> result (list float)) df ascending wrap :
  Exists (fun row => (2 <= length (dropna row))%nat) (values df) ->
  topn_df partsort df 0 ascending wrap = Raise ValueError.
Proof.
  intros Hex. unfold topn_df.
  replace (Z.to_nat (Z.min (len (columns df)) (Z.abs 0))) with 0%nat
    by (unfold len; simpl; lia).
  rewrite fill_np_ndarray.
  pose proof (topn_df_loop_no_column partsort ascending
                (length (values df), 0%nat) (values df) [] [] eq_refl) as Hloop.
  simpl in Hloop. simpl. rewrite Hloop.
  replace (forallb (fun row => (length (dropna row) <=? 1)%nat) (values df))
    with false; [reflexivity|].
  symmetry. apply not_true_is_false. intros Hall.
  rewrite forallb_forall in Hall. apply Exists_exists in Hex.
  destruct Hex as (row & Hin & Hrow). apply Hall in Hin.
  apply Nat.leb_le in Hin. lia.
Qed.

Lemma topn_df_zero_raises_witness :
  topn_df ref_partsort
    {| index := [LInt 0]; columns := [LStr "x"; LStr "y"; LStr "z"];
       values := [[Num 4; NaN; Num 6]] |} 0 None true
  = Raise ValueError.
Proof.
  apply (topn_df_zero_raises ref_partsort
           {| index := [LInt 0]; columns := [LStr "x"; LStr "y"; LStr "z"];
              values := [[Num 4; NaN; Num 6]] |} None true).
  apply Exists_cons_hd. simpl. lia.
Defined.

(** C10 as stated fails: the only row of this table holds a number, and
    [topn_df] with [N = 0] returns (a table of one row and no column),
    the one-cell result being broadcast over the empty target. *)
Lemma topn_df_zero_single_value_returns :
  topn_df ref_partsort
    {| index := [LInt 0]; columns := [LStr "x"; LStr "y"];
       values := [[Num 5; NaN]] |} 0 None true
  = Ok (inl {| index := [LInt 0]; columns := []; values := [[]] |}).
Proof. reflexivity. Qed.

(** ** The cache of [ListFrame] *)

Section ListFrameFacts.

Variable object : Type.
Variable object_eqb : object -> object -> bool.
Variable object_ltb : object -> object -> bool.
Variable frame : Type.
Variable attr_list : Type.
Variable listframe_to_frame : list object -> option attr_list -> bool -> frame.

(** A wrapper made by [_binder] leaves the cache empty, whether the
    list's method returns or raises. *)
Lemma binder_clears_cache method args (self : ListFrame object frame attr_list) :
  _cache_df _ _ _
    (snd (_binder object object_eqb object_ltb frame attr_list
            method args self)) = None.
Proof.
  unfold _binder. simpl.
  destruct (list_method object object_eqb object_ltb method args
              (items _ _ _ self)); reflexivity.
Qed.

(** The class holds a wrapper for every name of [mutation_methods]. *)
Lemma mutation_methods_bound :
  Forall (fun method =>
            getattr object frame attr_list
              (ListFrame_methods object object_eqb object_ltb frame attr_list)
              method
            = Some (_binder object object_eqb object_ltb frame attr_list
                      method))
         mutation_methods.
Proof. repeat constructor. Qed.

(** [to_frame] fills the cache. *)
Lemma to_frame_caches (self : ListFrame object frame attr_list) attrs0 repr_col0 :
  let '(df, self') :=
    to_frame object frame attr_list listframe_to_frame self attrs0 repr_col0
  in _cache_df _ _ _ self' = Some df.
Proof. reflexivity. Qed.

(** X17: on every instance, a call of [append], [__setitem__],
    [__delitem__], [sort], [extend], [insert], [pop], [remove] or
    [reverse], with any arguments, leaves [_cache_df] at [None], whether
    the list's method returns or raises. *)
Theorem mutation_clears_cache :
  Forall (fun method =>
            forall (self : ListFrame object frame attr_list) (args : list (pyarg object)),
              _cache_df _ _ _
                (snd (call object object_eqb object_ltb frame attr_list
                        self method args)) = None)
         [ "append"; "__setitem__"; "__delitem__"; "sort"; "extend";
           "insert"; "pop"; "remove"; "reverse" ]%string.
Proof.
  pose proof mutation_methods_bound as Hb.
  eapply Forall_impl; [|exact Hb].
  intros method Hm self args. cbv beta in Hm. unfold call. rewrite Hm.
  apply binder_clears_cache.
Qed.


End ListFrameFacts.

(** ** Position arrays *)

Lemma take_in_range {A : Type} (d : A) (arr : list A) (index : list nat) :
  Forall (fun i => (i < length arr)%nat) index ->
  take arr index = Ok (map (fun i => nth i arr d) index).
Proof.
  induction 1 as [|i index Hi _ IH]; simpl; [reflexivity|].
  rewrite (nth_error_nth' arr d Hi), IH. reflexivity.
Qed.

Lemma values_at_seq arr : values_at arr (seq 0 (length arr)) = arr.
Proof.
  unfold values_at. apply nth_ext with (d := NaN) (d' := NaN).
  - now rewrite length_map, length_seq.
  - intros i Hi. rewrite length_map, length_seq in Hi.
    rewrite (nth_indep _ NaN (nth 0 arr NaN))
      by now rewrite length_map, length_seq.
    rewrite (map_nth (fun i => nth i arr NaN) (seq 0 (length arr)) 0%nat i).
    now rewrite seq_nth.
Qed.

Lemma values_at_perm arr index :
  Permutation index (seq 0 (length arr)) -> Permutation (values_at arr index) arr.
Proof.
  intros Hp. rewrite <- (values_at_seq arr) at 2.
  unfold values_at. now apply Permutation_map.
Qed.

Lemma perm_seq_in_range (n : nat) index :
  Permutation index (seq 0 n) -> Forall (fun i => (i < n)%nat) index.
Proof.
  intros Hp. apply Forall_forall. intros i Hi.
  eapply Permutation_in in Hi; [|exact Hp]. apply in_seq in Hi. lia.
Qed.

Lemma values_at_compose (arr : list float) (index p : list nat) :
  Forall (fun j => (j < length index)%nat) p ->
  values_at arr (map (fun j => nth j index 0%nat) p)
  = values_at (values_at arr index) p.
Proof.
  intros Hp. unfold values_at. rewrite map_map. apply map_ext_in.
  intros j Hj. rewrite Forall_forall in Hp. specialize (Hp j Hj).
  rewrite (nth_indep (map _ index) NaN (nth (nth 0 index 0%nat) arr NaN))
    by now rewrite length_map.
  rewrite (nth_indep index 0%nat (nth 0 index 0%nat)) by exact Hp.
  symmetry.
  exact (map_nth (fun i => nth i arr NaN) index (nth 0 index 0%nat) j).
Qed.

Lemma values_at_no_nan arr index :
  no_nan arr -> Forall (fun i => (i < length arr)%nat) index ->
  no_nan (values_at arr index).
Proof.
  intros Ha Hi. unfold no_nan, values_at. rewrite Forall_map.
  eapply Forall_impl; [|exact Hi]. intros i Hlt. simpl in Hlt.
  unfold no_nan in Ha. rewrite Forall_forall in Ha.
  apply Ha, nth_In, Hlt.
Qed.

(** The translation table of [bn_topargn]: position [j] of the compacted
    array is position [old_index_map[j]] of the array. *)
Lemma where_from_dropna arr : forall k,
  map (fun i => nth (i - k) arr NaN) (where_from k (np_not (np_isnan arr)))
  = dropna arr
  /\ Forall (fun i => (k <= i < k + length arr)%nat)
            (where_from k (np_not (np_isnan arr))).
Proof.
  induction arr as [|x arr IH]; intros k; simpl; [split; constructor|].
  destruct (IH (S k)) as [Hm Hr].
  assert (map (fun i => nth (i - k) (x :: arr) NaN)
              (where_from (S k) (np_not (np_isnan arr))) = dropna arr) as Hm'.
  { rewrite <- Hm. apply map_ext_in. intros i Hi.
    rewrite Forall_forall in Hr. specialize (Hr i Hi).
    replace (i - k)%nat with (S (i - S k)) by lia. reflexivity. }
  assert (Forall (fun i => (k <= i < k + S (length arr))%nat)
                 (where_from (S k) (np_not (np_isnan arr)))) as Hr'.
  { eapply Forall_impl; [|exact Hr]. simpl. intros; lia. }
  destruct (isnan x) eqn:E; simpl.
  - split; assumption.
  - split.
    + f_equal; [now rewrite Nat.sub_diag|exact Hm'].
    + constructor; [lia|exact Hr'].
Qed.

Lemma np_where_values arr :
  values_at arr (np_where (np_not (np_isnan arr))) = dropna arr.
Proof.
  destruct (where_from_dropna arr 0) as [Hm _].
  rewrite <- Hm. unfold values_at, np_where. apply map_ext.
  intros i. now rewrite Nat.sub_0_r.
Qed.

Lemma np_where_in_range arr :
  Forall (fun i => (i < length arr)%nat) (np_where (np_not (np_isnan arr))).
Proof.
  destruct (where_from_dropna arr 0) as [_ Hr].
  eapply Forall_impl; [|exact Hr]. simpl. intros; lia.
Qed.

Lemma np_where_length arr :
  length (np_where (np_not (np_isnan arr))) = length (dropna arr).
Proof.
  rewrite <- (np_where_values arr). unfold values_at. now rewrite length_map.
Qed.

(** Without NaN the array is not compacted, and compacting would change
    nothing. *)
Lemma compacted arr :
  (if negb (mask_sum (np_isnan arr) =? 0)
   then mask_index arr (np_not (np_isnan arr)) else arr) = dropna arr.
Proof.
  destruct (Z.eqb_spec (mask_sum (np_isnan arr)) 0) as [E|E]; simpl.
  - symmetry. apply dropna_id. unfold mask_sum, len in E.
    induction arr as [|x arr IH]; [constructor|].
    simpl in E. destruct (isnan x) eqn:Ex; simpl in E; [lia|].
    constructor; [exact Ex|apply IH; exact E].
  - apply mask_index_dropna.
Qed.

(** ** [bn_topargn] *)

Section TopargnFacts.

Variable argpartsort : list float -> Z -> result (list nat).
Variable argsort : list float -> list nat.
Hypothesis argpartsort_spec : argpartsort_contract argpartsort.
Hypothesis argsort_spec : argsort_contract argsort.

Lemma argsort_sorts vals :
  no_nan vals -> values_at vals (argsort vals) = np_sort vals.
Proof.
  intros Hv. symmetry. apply np_sort_unique.
  - now apply (argsort_sorted _ argsort_spec).
  - apply values_at_perm. now apply (argsort_perm _ argsort_spec).
Qed.

(** The second half of [bn_topargn], from the selected positions
    [index] of the compacted array on: the positions returned point, in
    the original array, at the selected values in the order asked. *)
Lemma bn_topargn_order s index (asc : bool) :
  Forall (fun i => (i < length (dropna s))%nat) index ->
  exists idx,
    (vals <- take (dropna s) index ;;
     index' <- take index
                 (if negb asc then rev (argsort vals) else argsort vals) ;;
     if negb (mask_sum (np_isnan s) =? 0)
     then take (np_where (np_not (np_isnan s))) index'
     else Ok index') = Ok idx
    /\ take s idx = Ok (orient asc (np_sort (values_at (dropna s) index))).
Proof.
  intros Hindex. set (a := dropna s) in *.
  assert (no_nan a) as Ha by apply dropna_no_nan.
  rewrite (take_in_range NaN a index Hindex). simpl.
  fold (values_at a index). set (vals := values_at a index).
  assert (no_nan vals) as Hv by now apply values_at_no_nan.
  assert (length vals = length index) as Lv
      by (unfold vals, values_at; now rewrite length_map).
  set (p := if negb asc then rev (argsort vals) else argsort vals).
  assert (p = orient asc (argsort vals)) as Ep by now destruct asc.
  assert (Forall (fun j => (j < length index)%nat) p) as Hp.
  { rewrite Ep, <- Lv. unfold orient.
    pose proof (perm_seq_in_range _ _ (argsort_perm _ argsort_spec vals Hv)).
    destruct asc; [assumption|now apply Forall_rev]. }
  rewrite (take_in_range 0%nat index p Hp). simpl.
  set (idx2 := map (fun j => nth j index 0%nat) p).
  assert (Forall (fun i => (i < length a)%nat) idx2) as H2.
  { unfold idx2. rewrite Forall_map. eapply Forall_impl; [|exact Hp].
    intros j Hj. simpl in Hj. rewrite Forall_forall in Hindex.
    apply Hindex, nth_In, Hj. }
  assert (values_at a idx2 = orient asc (np_sort vals)) as E2.
  { unfold idx2. rewrite values_at_compose by exact Hp. fold vals.
    rewrite Ep, <- (argsort_sorts vals Hv). unfold orient, values_at.
    destruct asc; [reflexivity|apply map_rev]. }
  destruct (Z.eqb_spec (mask_sum (np_isnan s)) 0) as [E|E]; simpl.
  - (* no NaN: the positions are those of the array itself *)
    assert (a = s) as Eas.
    { pose proof (compacted s) as C. fold a in C. rewrite <- C.
      destruct (Z.eqb_spec (mask_sum (np_isnan s)) 0); [reflexivity|lia]. }
    exists idx2. split; [reflexivity|].
    rewrite <- Eas at 1. rewrite (take_in_range NaN a idx2 H2).
    fold (values_at a idx2). now rewrite E2.
  - (* translate the positions back *)
    set (oim := np_where (np_not (np_isnan s))).
    assert (Forall (fun i => (i < length oim)%nat) idx2) as H3
        by (unfold oim; now rewrite np_where_length).
    rewrite (take_in_range 0%nat oim idx2 H3).
    eexists; split; [reflexivity|].
    rewrite (take_in_range NaN s).
    + fold (values_at s (map (fun i => nth i oim 0%nat) idx2)).
      rewrite values_at_compose by exact H3.
      unfold oim. rewrite np_where_values. fold a. now rewrite E2.
    + rewrite Forall_map. eapply Forall_impl; [|exact H3].
      intros j Hj. simpl in Hj.
      pose proof (np_where_in_range s) as Hr. fold oim in Hr.
      rewrite Forall_forall in Hr. apply Hr, nth_In, Hj.
Qed.

End TopargnFacts.

Section RoundTrip.

Variable partsort : list float -> Z -> result (list float).
Variable argpartsort : list float -> Z -> result (list nat).
Variable argsort : list float -> list nat.
Hypothesis partsort_spec : partsort_contract partsort.
Hypothesis argpartsort_spec : argpartsort_contract argpartsort.
Hypothesis argsort_spec : argsort_contract argsort.

(** When the request asks for fewer of the largest numbers than there
    are, or for no more of the smallest than there are, [bn_topargn]
    returns positions, and they point at the values [bn_topn] selects,
    in the same order. *)
Lemma bn_topargn_selected s N ascending :
  0 < N < len (dropna s) \/ - len (dropna s) <= N < 0 ->
  exists idx,
    bn_topargn argpartsort argsort s N ascending = Ok idx
    /\ take s idx
       = Ok (orient (resolve_ascending N ascending) (selected s N)).
Proof.
  intros HN. unfold bn_topargn. cbv zeta. rewrite compacted.
  fold (resolve_ascending N ascending).
  set (asc := resolve_ascending N ascending).
  pose proof (dropna_no_nan s) as Ha.
  pose proof (np_sort_length (dropna s)) as Hl.
  unfold selected, len in *.
  destruct (Z.gtb_spec N 0) as [Hpos|Hneg].
  - set (n := Z.of_nat (length (dropna s)) - Z.abs N).
    destruct (argpartsort_ok _ argpartsort_spec (dropna s) n Ha)
      as (out & -> & Hp & Hs); [unfold len, n; lia|].
    unfold bind at 1. rewrite getslice_from by (unfold n; lia).
    destruct (bn_topargn_order argsort argsort_spec s
                (skipn (Z.to_nat n) out) asc) as (idx & -> & Hidx).
    { apply perm_seq_in_range in Hp.
      rewrite Forall_forall in *. intros i Hi. eapply Hp, in_skipn, Hi. }
    exists idx. split; [reflexivity|]. rewrite Hidx.
    unfold values_at. rewrite <- skipn_map. fold (values_at (dropna s) out).
    destruct (split_at_sorted (Z.to_nat n) (values_at (dropna s) out)
                (dropna s)) as [_ ->];
      [now apply values_at_perm|exact Hs|unfold n; lia|].
    do 3 f_equal. unfold n. lia.
  - set (n := Z.abs N).
    destruct (argpartsort_ok _ argpartsort_spec (dropna s) n Ha)
      as (out & -> & Hp & Hs); [unfold len, n; lia|].
    unfold bind at 1. rewrite getslice_to by (unfold n; lia).
    destruct (bn_topargn_order argsort argsort_spec s
                (firstn (Z.to_nat n) out) asc) as (idx & -> & Hidx).
    { apply perm_seq_in_range in Hp.
      rewrite Forall_forall in *. intros i Hi. eapply Hp, in_firstn, Hi. }
    exists idx. split; [reflexivity|]. rewrite Hidx.
    unfold values_at. rewrite <- firstn_map. fold (values_at (dropna s) out).
    destruct (split_at_sorted (Z.to_nat n) (values_at (dropna s) out)
                (dropna s)) as [-> _];
      [now apply values_at_perm|exact Hs|unfold n; lia|].
    destruct (Z.eqb_spec N 0); [lia|].
    do 3 f_equal. unfold n. lia.
Qed.

(** X1: the round trip of the docstring, on the requests [bn_topargn]
    serves: indexing the sequence with the positions gives the values of
    [bn_topn], cell for cell. *)
Theorem round_trip_in_range s N ascending :
  0 < N < len (dropna s) \/ - len (dropna s) <= N < 0 ->
  exists idx vals,
    bn_topargn argpartsort argsort s N ascending = Ok idx
    /\ take s idx = Ok vals
    /\ bn_topn partsort s N ascending = Ok vals
    /\ no_nan vals.
Proof.
  intros HN. destruct (bn_topargn_selected s N ascending HN) as (idx & Hi & Ht).
  exists idx. eexists. split; [exact Hi|]. split; [exact Ht|].
  split; [apply (bn_topn_selected _ partsort_spec)|].
  unfold no_nan, orient.
  destruct (resolve_ascending N ascending);
    [|apply Forall_rev]; apply selected_no_nan.
Qed.

(** X2: [bn_topargn] does not clamp the request: asking for all the numbers
    or more ([N >= M]), for none ([N = 0]), or for more of the smallest
    than there are ([N < -M]) hands [argpartsort] a split point outside
    [1 .. M], which it refuses: with [ValueError] when the split point
    ([M - N] for [N > 0], [|N|] otherwise) fits a C [int], with
    [OverflowError] when it does not. *)
Theorem bn_topargn_unclamped s N ascending :
  dropna s <> [] ->
  len (dropna s) <= N \/ N = 0 \/ N < - len (dropna s) ->
  bn_topargn argpartsort argsort s N ascending
  = Raise (if fits_c_int (if N >? 0 then len (dropna s) - N else - N)
           then ValueError else OverflowError).
Proof.
  intros Hne HN. unfold bn_topargn. cbv zeta. rewrite compacted.
  set (a := dropna s) in *.
  assert (0 < len a) as Hpos.
  { unfold len. destruct a; [congruence|simpl; lia]. }
  destruct (Z.gtb_spec N 0).
  - replace (Z.abs N) with N by lia.
    destruct (fits_c_int (len a - N)) eqn:Hc.
    + rewrite (argpartsort_range _ argpartsort_spec) by (auto; lia).
      reflexivity.
    + rewrite (argpartsort_overflow _ argpartsort_spec) by (auto; lia).
      reflexivity.
  - replace (Z.abs N) with (- N) by lia.
    destruct (fits_c_int (- N)) eqn:Hc.
    + rewrite (argpartsort_range _ argpartsort_spec) by (auto; lia).
      reflexivity.
    + rewrite (argpartsort_overflow _ argpartsort_spec) by (auto; lia).
      reflexivity.
Qed.

End RoundTrip.

Lemma round_trip_in_range_witness :
  exists idx vals,
    bn_topargn ref_argpartsort ref_argsort
      [Num 3; Num 1; NaN; Num 5; Num 2] 2 None = Ok idx
    /\ take [Num 3; Num 1; NaN; Num 5; Num 2] idx = Ok vals
    /\ bn_topn ref_partsort [Num 3; Num 1; NaN; Num 5; Num 2] 2 None = Ok vals
    /\ no_nan vals.
Proof.
  apply (round_trip_in_range ref_partsort ref_argpartsort ref_argsort
           ref_partsort_contract ref_argpartsort_contract ref_argsort_contract
           [Num 3; Num 1; NaN; Num 5; Num 2] 2 None).
  left. unfold len. simpl. lia.
Defined.

Lemma bn_topargn_unclamped_witness :
  bn_topargn ref_argpartsort ref_argsort [Num 3; NaN; Num 1] (-3) (Some true)
  = Raise ValueError.
Proof.
  apply (bn_topargn_unclamped ref_argpartsort ref_argsort
           ref_argpartsort_contract [Num 3; NaN; Num 1] (-3) (Some true)).
  - simpl. discriminate.
  - right. right. unfold len. simpl. lia.
Defined.

(** X3: [bn_topn] returns, for every request, the cells [selected] describes:
    a slice of the sorted NaN-free array, in the order asked. *)
Theorem bn_topn_returns_selected
    (partsort : list float -> Z -> result (list float)) s N ascending :
  partsort_contract partsort ->
  bn_topn partsort s N ascending
  = Ok (orient (resolve_ascending N ascending) (selected s N))
  /\ len (selected s N)
     = (if N =? 0 then len (dropna s) else Z.min (Z.abs N) (len (dropna s)))
  /\ StronglySorted fle (selected s N).
Proof.
  intros Hc. split; [now apply bn_topn_selected|].
  split; [apply selected_length|apply selected_sorted].
Qed.

Lemma bn_topn_returns_selected_witness :
  bn_topn ref_partsort [Num 4; NaN; Num 8; Num 6] 9 None
  = Ok (orient (resolve_ascending 9 None)
          (selected [Num 4; NaN; Num 8; Num 6] 9))
  /\ len (selected [Num 4; NaN; Num 8; Num 6] 9)
     = (if 9 =? 0 then len (dropna [Num 4; NaN; Num 8; Num 6])
        else Z.min (Z.abs 9) (len (dropna [Num 4; NaN; Num 8; Num 6])))
  /\ StronglySorted fle (selected [Num 4; NaN; Num 8; Num 6] 9).
Proof.
  apply (bn_topn_returns_selected ref_partsort [Num 4; NaN; Num 8; Num 6] 9 None).
  exact ref_partsort_contract.
Defined.

Lemma take_length {A : Type} (arr : list A) : forall ix l,
  take arr ix = Ok l -> length l = length ix.
Proof.
  induction ix as [|i ix IH]; simpl; intros l H.
  - now inversion H.
  - destruct (nth_error arr i); [|discriminate].
    destruct (take arr ix) as [xs|]; [|discriminate].
    simpl in H. inversion H. simpl. f_equal. now apply IH.
Qed.

(** C1, at a request the docstring of [bn_topargn] covers ("the following
    should be equivalent"): asked for as many numbers as the array holds,
    or for ten of them, [bn_topn] returns the three numbers and
    [bn_topargn] raises, so there are no positions to index with. *)
Theorem round_trip_fails_when_all_requested :
  bn_topn ref_partsort [Num 3; Num 1; Num 5] 3 None
  = Ok [Num 5; Num 3; Num 1]
  /\ bn_topargn ref_argpartsort ref_argsort [Num 3; Num 1; Num 5] 3 None
     = Raise ValueError
  /\ bn_topn ref_partsort [Num 3; Num 1; Num 5] 10 None
     = Ok [Num 5; Num 3; Num 1]
  /\ bn_topargn ref_argpartsort ref_argsort [Num 3; Num 1; Num 5] 10 None
     = Raise ValueError.
Proof. repeat split; reflexivity. Qed.

(** C2, at a request for more numbers than the compacted array holds:
    [bn_topargn] does not clamp to the two positions available, it
    raises. *)
Theorem bn_topargn_no_clamp :
  bn_topargn ref_argpartsort ref_argsort [Num 3; NaN; Num 1] 5 None
  = Raise ValueError
  /\ Z.min 5 (len (dropna [Num 3; NaN; Num 1])) = 2.
Proof. split; reflexivity. Qed.

(** ** The row-wise drivers of positions and labels *)

Lemma take_positions {A : Type} (arr : list A) : forall ix l,
  take arr ix = Ok l -> Forall2 (fun i x => nth_error arr i = Some x) ix l.
Proof.
  induction ix as [|i ix IH]; simpl; intros l H.
  - inversion H. constructor.
  - destruct (nth_error arr i) eqn:E; [|discriminate].
    destruct (take arr ix) as [xs|]; [|discriminate].
    simpl in H. inversion H. constructor; auto.
Qed.

Lemma take_ok_in_range {A : Type} (arr : list A) ix l :
  take arr ix = Ok l -> Forall (fun i => (i < length arr)%nat) ix.
Proof.
  intros H. apply take_positions in H.
  induction H as [|i x ix l Hi _ IH]; constructor; auto.
  apply nth_error_Some. congruence.
Qed.

Lemma Forall_exists_Forall2 {A B : Type} (R : A -> B -> Prop) l :
  Forall (fun x => exists y, R x y) l -> exists l', Forall2 R l l'.
Proof.
  induction 1 as [|x l [y Hy] _ [l' IH]].
  - exists []. constructor.
  - exists (y :: l'). now constructor.
Qed.

Lemma setrow_fits {A : Type} (cols : nat) (src : list A) :
  length src = cols -> setrow cols src = Ok src.
Proof. intros H. unfold setrow. now rewrite H, Nat.eqb_refl. Qed.

Lemma take_each_map (f : list float -> list float) vals : forall ps,
  Forall2 (fun row p => take row p = Ok (f row)) vals ps ->
  take_each vals ps = Ok (map f vals).
Proof.
  induction 1 as [|row p vals ps Hp _ IH]; simpl; [reflexivity|].
  now rewrite Hp, IH.
Qed.

Lemma pad_full (cols : nat) r : length r = cols -> pad cols r = r.
Proof.
  intros H. unfold pad. rewrite H, Nat.sub_diag. apply app_nil_r.
Qed.

Section TopargnDfFacts.

Variable argpartsort : list float -> Z -> result (list nat).
Variable argsort : list float -> list nat.

(** The loop when every row gives [cols] positions: the rows not yet
    visited, whatever they held, hold the positions afterwards. *)
Lemma topargn_df_loop_ok N ascending rows cols :
  forall todo ps pre done junk,
    length pre = length done ->
    length junk = length todo ->
    Forall2 (fun row p =>
               bn_topargn argpartsort argsort row N ascending = Ok p
               /\ length p = cols) todo ps ->
    topargn_df_loop argpartsort argsort (seq (length done) (length todo))
      (pre ++ todo) N ascending
      {| a_shape := (rows, cols); a_data := done ++ junk |}
    = Ok {| a_shape := (rows, cols); a_data := done ++ ps |}.
Proof.
  induction todo as [|row todo IH]; intros ps pre done junk Hl Hj Hall.
  - inversion Hall. destruct junk; [reflexivity|discriminate].
  - inversion Hall as [|? p ? ps' [Hr Hc] Hall']; subst.
    destruct junk as [|j junk]; [discriminate|].
    simpl. rewrite <- Hl at 1. rewrite nth_error_middle.
    unfold topargn. rewrite Hr. simpl.
    unfold setitem_whole_row. simpl. rewrite nth_error_middle.
    rewrite setrow_fits by reflexivity. simpl.
    rewrite replace_nth_app.
    replace (done ++ p :: junk) with ((done ++ [p]) ++ junk)
      by (rewrite <- app_assoc; reflexivity).
    replace (pre ++ row :: todo) with ((pre ++ [row]) ++ todo)
      by (rewrite <- app_assoc; reflexivity).
    replace (S (length done)) with (length (done ++ [p]))
      by (rewrite length_app; simpl; lia).
    rewrite (IH ps'); [|rewrite !length_app; simpl; lia
                       |simpl in Hj; lia|exact Hall'].
    rewrite <- app_assoc. reflexivity.
Qed.

(** The loop when a row makes [bn_topargn] raise [ValueError] and the
    rows before it give [cols] positions: the error comes out. *)
Lemma topargn_df_loop_raises N ascending rows cols :
  forall todo pre done junk,
    length pre = length done ->
    length junk = length todo ->
    Forall (fun row =>
              (exists p, bn_topargn argpartsort argsort row N ascending = Ok p
                         /\ length p = cols)
              \/ bn_topargn argpartsort argsort row N ascending
                 = Raise ValueError) todo ->
    Exists (fun row => bn_topargn argpartsort argsort row N ascending
                       = Raise ValueError) todo ->
    topargn_df_loop argpartsort argsort (seq (length done) (length todo))
      (pre ++ todo) N ascending
      {| a_shape := (rows, cols); a_data := done ++ junk |}
    = Raise ValueError.
Proof.
  induction todo as [|row todo IH]; intros pre done junk Hl Hj Hall Hex.
  - inversion Hex.
  - inversion Hall as [|? ? Hrow Hall']; subst.
    destruct junk as [|j junk]; [discriminate|].
    simpl. rewrite <- Hl at 1. rewrite nth_error_middle. unfold topargn.
    destruct Hrow as [(p & Hr & Hc)|Hr]; rewrite Hr; simpl; [|reflexivity].
    unfold setitem_whole_row. simpl. rewrite nth_error_middle.
    rewrite setrow_fits by exact Hc. simpl.
    rewrite replace_nth_app.
    replace (done ++ p :: junk) with ((done ++ [p]) ++ junk)
      by (rewrite <- app_assoc; reflexivity).
    replace (pre ++ row :: todo) with ((pre ++ [row]) ++ todo)
      by (rewrite <- app_assoc; reflexivity).
    replace (S (length done)) with (length (done ++ [p]))
      by (rewrite length_app; simpl; lia).
    apply IH; [rewrite !length_app; simpl; lia|simpl in Hj; lia|exact Hall'|].
    inversion Hex as [? ? Hhd|? ? Htl]; subst; [congruence|exact Htl].
Qed.

Hypothesis argpartsort_spec : argpartsort_contract argpartsort.
Hypothesis argsort_spec : argsort_contract argsort.

(** A served request gives exactly [|N|] positions. *)
Lemma bn_topargn_served row N ascending :
  served N row ->
  exists p, bn_topargn argpartsort argsort row N ascending = Ok p
            /\ length p = Z.to_nat (Z.abs N)
            /\ take row p
               = Ok (orient (resolve_ascending N ascending) (selected row N)).
Proof.
  intros Hs.
  destruct (bn_topargn_selected argpartsort argsort argpartsort_spec
              argsort_spec row N ascending Hs) as (p & Hp & Ht).
  exists p. split; [exact Hp|]. split; [|exact Ht].
  apply take_length in Ht. rewrite <- Ht, orient_length.
  pose proof (selected_length row N) as L. unfold served in Hs.
  destruct (Z.eqb_spec N 0); unfold len in *; lia.
Qed.

(** A request that is not served, on a row with a number in it, is
    refused by [argpartsort]; the split point of a request for no more
    positions than a C [int] counts fits a C [int]. *)
Lemma bn_topargn_refuses row N ascending :
  dropna row <> [] -> ~ served N row -> Z.abs N <= C_INT_MAX ->
  bn_topargn argpartsort argsort row N ascending = Raise ValueError.
Proof.
  intros Hne Hu Hint. unfold bn_topargn. cbv zeta. rewrite compacted.
  assert (0 < len (dropna row)) as Hpos.
  { unfold len. destruct (dropna row); [congruence|simpl; lia]. }
  unfold served in Hu.
  assert (forall n, - Z.abs N <= n <= Z.abs N -> fits_c_int n = true) as Hfit.
  { intros n Hn. unfold fits_c_int, C_INT_MIN, C_INT_MAX in *.
    apply andb_true_intro. rewrite !Z.leb_le. lia. }
  destruct (Z.gtb_spec N 0).
  - rewrite (argpartsort_range _ argpartsort_spec); auto; [lia|].
    apply Hfit. lia.
  - rewrite (argpartsort_range _ argpartsort_spec); auto; [lia|].
    apply Hfit. lia.
Qed.

(** On a row with a number in it, a request is served or refused. *)
Lemma bn_topargn_served_or_refused row N ascending :
  dropna row <> [] -> Z.abs N <= C_INT_MAX ->
  (exists p, bn_topargn argpartsort argsort row N ascending = Ok p
             /\ length p = Z.to_nat (Z.abs N))
  \/ bn_topargn argpartsort argsort row N ascending = Raise ValueError.
Proof.
  intros Hne Hint.
  assert (served N row \/ ~ served N row) as [Hs|Hu]
      by (unfold served; lia).
  - left. destruct (bn_topargn_served row N ascending Hs) as (p & Hp & Hl & _).
    eauto.
  - right. now apply bn_topargn_refuses.
Qed.

End TopargnDfFacts.

Lemma take_rows_in_range {A : Type} (labels : list A) rows :
  Forall (Forall (fun p => (p < length labels)%nat)) rows ->
  exists out, take_rows labels rows = Ok out
              /\ Forall2 (Forall2 (fun p l => nth_error labels p = Some l))
                         rows out.
Proof.
  induction 1 as [|row rows Hrow _ (out & Ho & Hall)]; simpl.
  - exists []. split; [reflexivity|constructor].
  - destruct (take labels row) as [r|e] eqn:E.
    + exists (r :: out). rewrite Ho. split; [reflexivity|].
      constructor; [now apply take_positions|exact Hall].
    + exfalso. clear -Hrow E. revert e E.
      induction Hrow as [|p row Hp _ IH]; simpl; intros e E; [discriminate|].
      apply nth_error_Some in Hp.
      destruct (nth_error labels p); [|congruence].
      destruct (take labels row) as [xs|e']; [discriminate|].
      eapply IH. reflexivity.
Qed.

(** X5: on a well-formed table whose rows all hold enough numbers for the
    request, [topargn_df] returns a table of [|N|] columns with the row
    labels of the input, and reading every row of the input at its row of
    positions gives the rows of [topn_df]. *)
Theorem topargn_df_round_trip
    (partsort : list float -> Z -> result (list float))
    (argpartsort : list float -> Z -> result (list nat))
    (argsort : list float -> list nat) df N ascending :
  partsort_contract partsort ->
  argpartsort_contract argpartsort ->
  argsort_contract argsort ->
  well_formed df ->
  Forall (served N) (values df) ->
  exists pos vt,
    topargn_df argpartsort argsort df N ascending true = Ok (inl pos)
    /\ topn_df partsort df N ascending true = Ok (inl vt)
    /\ f_index pos = index df
    /\ len (f_columns pos) = Z.abs N
    /\ Forall (fun p => len p = Z.abs N) (f_values pos)
    /\ take_each (values df) (f_values pos) = Ok (values vt).
Proof.
  intros Hp Hap Has [Hrows Hcols] Hserved.
  set (cols := Z.to_nat (Z.abs N)).
  set (cols_v := Z.to_nat (Z.min (len (columns df)) (Z.abs N))).
  set (sel := fun row => orient (resolve_ascending N ascending) (selected row N)).
  assert (Forall (fun row =>
            exists p, (bn_topargn argpartsort argsort row N ascending = Ok p
                       /\ length p = cols)
                      /\ take row p = Ok (pad cols_v (sel row))
                      /\ (length (sel row) <= cols_v)%nat) (values df)) as Hall.
  { rewrite Forall_forall in *. intros row Hin.
    destruct (bn_topargn_served argpartsort argsort Hap Has row N ascending
                (Hserved row Hin)) as (p & Hb & Hl & Ht).
    assert (length (sel row) = cols) as Ls
        by (apply take_length in Ht; unfold sel; lia).
    assert (cols_v = cols) as Ec.
    { pose proof (dropna_length_le row) as D. specialize (Hcols row Hin).
      specialize (Hserved row Hin). unfold served in Hserved.
      simpl in Hcols. unfold cols_v, cols, len in *. lia. }
    exists p. rewrite Ec, pad_full by exact Ls.
    repeat split; auto. lia. }
  destruct (Forall_exists_Forall2 _ _ Hall) as (ps & Hps).
  exists {| f_index := index df; f_columns := RangeIndex cols; f_values := ps |}.
  exists {| index := index df; columns := RangeIndex cols_v;
            values := map (fun row => pad cols_v (sel row)) (values df) |}.
  split; [|split; [|split; [|split; [|split]]]].
  - assert (Forall2 (fun row p =>
                       bn_topargn argpartsort argsort row N ascending = Ok p
                       /\ length p = cols) (values df) ps) as Hps'
        by (eapply Forall2_impl; [|exact Hps]; intros row p (H & _); exact H).
    pose proof (topargn_df_loop_ok argpartsort argsort N ascending
                  (length (values df)) cols (values df) ps [] []
                  (repeat (repeat 0%nat cols) (length (values df)))
                  eq_refl (repeat_length _ _) Hps') as Hloop.
    cbn [app length] in Hloop.
    unfold topargn_df, np_ndarray_int. fold cols. rewrite Hloop.
    simpl. unfold pd_DataFrame_of. simpl.
    rewrite Hrows, Nat.eqb_refl. reflexivity.
  - unfold topn_df. fold cols_v. rewrite fill_np_ndarray.
    pose proof (topn_df_loop_fits partsort N ascending
                  (length (values df), cols_v) cols_v sel (values df) [] []
                  eq_refl) as Hloop.
    simpl in Hloop. rewrite Hloop.
    + simpl. unfold pd_DataFrame. simpl. rewrite Hrows, Nat.eqb_refl.
      reflexivity.
    + eapply Forall_impl; [|exact Hall]. intros row (p & _ & _ & Hfit).
      split; [apply (bn_topn_selected _ Hp)|exact Hfit].
  - reflexivity.
  - simpl. unfold len, RangeIndex. rewrite length_map, length_seq.
    unfold cols. lia.
  - simpl. clear -Hps. induction Hps as [|row p vals ps ((_ & Hl) & _) _ IH];
      constructor; auto. unfold len, cols in *. lia.
  - simpl. apply take_each_map.
    eapply Forall2_impl; [|exact Hps]. intros row p (_ & H & _). exact H.
Qed.

Lemma topargn_df_round_trip_witness :
  exists pos vt,
    topargn_df ref_argpartsort ref_argsort
      {| index := [LStr "a"; LStr "b"];
         columns := [LInt 0; LInt 1; LInt 2; LInt 3];
         values := [[Num 3; Num 1; Num 5; Num 2];
                    [Num 9; NaN; Num 4; Num 0]] |} 2 None true
    = Ok (inl pos)
    /\ topn_df ref_partsort
         {| index := [LStr "a"; LStr "b"];
            columns := [LInt 0; LInt 1; LInt 2; LInt 3];
            values := [[Num 3; Num 1; Num 5; Num 2];
                       [Num 9; NaN; Num 4; Num 0]] |} 2 None true
       = Ok (inl vt)
    /\ f_index pos = [LStr "a"; LStr "b"]
    /\ len (f_columns pos) = Z.abs 2
    /\ Forall (fun p => len p = Z.abs 2) (f_values pos)
    /\ take_each [[Num 3; Num 1; Num 5; Num 2]; [Num 9; NaN; Num 4; Num 0]]
         (f_values pos) = Ok (values vt).
Proof.
  apply (topargn_df_round_trip ref_partsort ref_argpartsort ref_argsort
           {| index := [LStr "a"; LStr "b"];
              columns := [LInt 0; LInt 1; LInt 2; LInt 3];
              values := [[Num 3; Num 1; Num 5; Num 2];
                         [Num 9; NaN; Num 4; Num 0]] |} 2 None).
  - exact ref_partsort_contract.
  - exact ref_argpartsort_contract.
  - exact ref_argsort_contract.
  - split; [reflexivity|repeat constructor].
  - repeat constructor; unfold len; simpl; lia.
Defined.

(** X6: [topargn_df] does not guard a shortfall. For a request of no
    more positions than the table has columns (so the array of positions
    is no larger than the table, and the split points fit a C [int]),
    when every row holds a number and one row does not hold enough of
    them ([N >= M] for the largest, [|N| > M] for the smallest, or
    [N = 0]), the call raises [ValueError], with or without [wrap]. *)
Theorem topargn_df_short_row
    (argpartsort : list float -> Z -> result (list nat))
    (argsort : list float -> list nat) df N ascending wrap :
  argpartsort_contract argpartsort ->
  argsort_contract argsort ->
  Z.abs N <= len (columns df) <= C_INT_MAX ->
  Forall (fun row => dropna row <> []) (values df) ->
  Exists (fun row => ~ served N row) (values df) ->
  topargn_df argpartsort argsort df N ascending wrap = Raise ValueError.
Proof.
  intros Hap Has Hint Hne Hex.
  pose proof (topargn_df_loop_raises argpartsort argsort N ascending
                (length (values df)) (Z.to_nat (Z.abs N)) (values df) [] []
                (repeat (repeat 0%nat (Z.to_nat (Z.abs N)))
                        (length (values df)))
                eq_refl (repeat_length _ _)) as Hloop.
  cbn [app length] in Hloop.
  unfold topargn_df, np_ndarray_int. rewrite Hloop; [reflexivity| |].
  - eapply Forall_impl; [|exact Hne]. intros row Hrow.
    apply bn_topargn_served_or_refused; auto. lia.
  - rewrite Forall_forall in Hne. apply Exists_exists in Hex.
    destruct Hex as (row & Hin & Hu). apply Exists_exists. exists row.
    split; [exact Hin|]. apply bn_topargn_refuses; auto. lia.
Qed.

Lemma topargn_df_short_row_witness :
  topargn_df ref_argpartsort ref_argsort
    {| index := [LStr "a"; LStr "b"];
       columns := [LInt 0; LInt 1; LInt 2];
       values := [[Num 3; Num 1; Num 5]; [Num 9; NaN; Num 4]] |} 2 None true
  = Raise ValueError.
Proof.
  apply (topargn_df_short_row ref_argpartsort ref_argsort
           {| index := [LStr "a"; LStr "b"];
              columns := [LInt 0; LInt 1; LInt 2];
              values := [[Num 3; Num 1; Num 5]; [Num 9; NaN; Num 4]] |}
           2 None true).
  - exact ref_argpartsort_contract.
  - exact ref_argsort_contract.
  - unfold len, C_INT_MAX. simpl. lia.
  - repeat constructor; simpl; discriminate.
  - apply Exists_cons_tl, Exists_cons_hd. unfold served, len. simpl. lia.
Defined.

(** X7: under the same conditions [topindexn_df] returns a table of
    [|N|] columns with the row labels of the input, and each of its cells
    is the column label standing at the position [topargn_df] gives for
    that cell: no position falls outside the columns. *)
Theorem topindexn_df_labels
    (argpartsort : list float -> Z -> result (list nat))
    (argsort : list float -> list nat) df N ascending :
  argpartsort_contract argpartsort ->
  argsort_contract argsort ->
  well_formed df ->
  Forall (served N) (values df) ->
  exists pos lab,
    topargn_df argpartsort argsort df N ascending false = Ok (inr pos)
    /\ topindexn_df argpartsort argsort df N ascending = Ok lab
    /\ f_index lab = index df
    /\ len (f_columns lab) = Z.abs N
    /\ Forall2 (Forall2 (fun p l => nth_error (columns df) p = Some l))
               (a_data pos) (f_values lab).
Proof.
  intros Hap Has [Hrows Hcols] Hserved.
  set (cols := Z.to_nat (Z.abs N)).
  assert (Forall (fun row =>
            exists p, (bn_topargn argpartsort argsort row N ascending = Ok p
                       /\ length p = cols)
                      /\ Forall (fun i => (i < length (columns df))%nat) p)
                 (values df)) as Hall.
  { rewrite Forall_forall in *. intros row Hin.
    destruct (bn_topargn_served argpartsort argsort Hap Has row N ascending
                (Hserved row Hin)) as (p & Hb & Hl & Ht).
    exists p. repeat split; auto.
    apply take_ok_in_range in Ht. rewrite <- (Hcols row Hin). exact Ht. }
  destruct (Forall_exists_Forall2 _ _ Hall) as (ps & Hps).
  assert (Forall2 (fun row p =>
                     bn_topargn argpartsort argsort row N ascending = Ok p
                     /\ length p = cols) (values df) ps) as Hps'
      by (eapply Forall2_impl; [|exact Hps]; intros row p (H & _); exact H).
  assert (Forall (Forall (fun i => (i < length (columns df))%nat)) ps) as Hin.
  { clear -Hps. induction Hps as [|row p vals ps (_ & H) _ IH];
      constructor; auto. }
  destruct (take_rows_in_range (columns df) ps Hin) as (out & Hout & Hlab).
  pose proof (topargn_df_loop_ok argpartsort argsort N ascending
                (length (values df)) cols (values df) ps [] []
                (repeat (repeat 0%nat cols) (length (values df)))
                eq_refl (repeat_length _ _) Hps') as Hloop.
  cbn [app length] in Hloop.
  assert (topargn_df argpartsort argsort df N ascending false
          = Ok (inr {| a_shape := (length (values df), cols); a_data := ps |}))
    as Hpos.
  { unfold topargn_df, np_ndarray_int. fold cols. rewrite Hloop. reflexivity. }
  exists {| a_shape := (length (values df), cols); a_data := ps |}.
  exists {| f_index := index df; f_columns := RangeIndex cols; f_values := out |}.
  split; [exact Hpos|]. split; [|split; [reflexivity|split]].
  - unfold topindexn_df. rewrite Hpos. simpl.
    unfold index_getitem. simpl. rewrite Hout. simpl.
    unfold pd_DataFrame_of. simpl. rewrite Hrows, Nat.eqb_refl. reflexivity.
  - simpl. unfold len, RangeIndex. rewrite length_map, length_seq.
    unfold cols. lia.
  - exact Hlab.
Qed.

Lemma topindexn_df_labels_witness :
  exists pos lab,
    topargn_df ref_argpartsort ref_argsort
      {| index := [LInt 0; LInt 1];
         columns := [LStr "w"; LStr "x"; LStr "y"; LStr "z"];
         values := [[Num 3; Num 1; Num 5; Num 2];
                    [Num 9; NaN; Num 4; Num 0]] |} (-2) None false
    = Ok (inr pos)
    /\ topindexn_df ref_argpartsort ref_argsort
         {| index := [LInt 0; LInt 1];
            columns := [LStr "w"; LStr "x"; LStr "y"; LStr "z"];
            values := [[Num 3; Num 1; Num 5; Num 2];
                       [Num 9; NaN; Num 4; Num 0]] |} (-2) None
       = Ok lab
    /\ f_index lab = [LInt 0; LInt 1]
    /\ len (f_columns lab) = Z.abs (-2)
    /\ Forall2 (Forall2 (fun p l =>
                           nth_error [LStr "w"; LStr "x"; LStr "y"; LStr "z"] p
                           = Some l))
               (a_data pos) (f_values lab).
Proof.
  apply (topindexn_df_labels ref_argpartsort ref_argsort
           {| index := [LInt 0; LInt 1];
              columns := [LStr "w"; LStr "x"; LStr "y"; LStr "z"];
              values := [[Num 3; Num 1; Num 5; Num 2];
                         [Num 9; NaN; Num 4; Num 0]] |} (-2) None).
  - exact ref_argpartsort_contract.
  - exact ref_argsort_contract.
  - split; [reflexivity|repeat constructor].
  - repeat constructor; unfold len; simpl; lia.
Defined.

(** X8: with [N = 0], [topn_df] returns when no row holds more than one
    number: the table has the row labels of the input, no column, and so
    none of the values. *)
Theorem topn_df_zero_returns
    (partsort : list float -> Z -> result (list float)) df ascending :
  well_formed df ->
  Forall (fun row => (length (dropna row) <= 1)%nat) (values df) ->
  topn_df partsort df 0 ascending true
  = Ok (inl {| index := index df; columns := [];
               values := repeat [] (length (values df)) |}).
Proof.
  intros [Hrows _] Hall. unfold topn_df.
  replace (Z.to_nat (Z.min (len (columns df)) (Z.abs 0))) with 0%nat
    by (unfold len; simpl; lia).
  rewrite fill_np_ndarray.
  pose proof (topn_df_loop_no_column partsort ascending
                (length (values df), 0%nat) (values df) [] [] eq_refl) as Hloop.
  simpl in Hloop. simpl. rewrite Hloop.
  replace (forallb (fun row => (length (dropna row) <=? 1)%nat) (values df))
    with true.
  - simpl. unfold pd_DataFrame. simpl. rewrite Hrows, Nat.eqb_refl.
    reflexivity.
  - symmetry. apply forallb_forall. rewrite Forall_forall in Hall.
    intros row Hin. apply Nat.leb_le. auto.
Qed.

Lemma topn_df_zero_returns_witness :
  topn_df ref_partsort
    {| index := [LStr "a"; LStr "b"]; columns := [LInt 0; LInt 1];
       values := [[Num 5; NaN]; [NaN; NaN]] |} 0 None true
  = Ok (inl {| index := [LStr "a"; LStr "b"]; columns := [];
               values := repeat [] (length [[Num 5; NaN]; [NaN; NaN]]) |}).
Proof.
  apply (topn_df_zero_returns ref_partsort
           {| index := [LStr "a"; LStr "b"]; columns := [LInt 0; LInt 1];
              values := [[Num 5; NaN]; [NaN; NaN]] |} None).
  - split; [reflexivity|repeat constructor].
  - repeat constructor.
Defined.

(** ** The attrs of the list-to-table projection *)

Lemma attr_eqb_eq a b : attr_eqb a b = true <-> a = b.
Proof.
  destruct a, b; simpl; try (split; [discriminate|congruence]);
    try (split; reflexivity).
  - rewrite String.eqb_eq. split; congruence.
  - rewrite Nat.eqb_eq. split; congruence.
Qed.

Lemma attr_eqb_refl a : attr_eqb a a = true.
Proof. now apply attr_eqb_eq. Qed.

Lemma attr_eqb_neq a b : a <> b -> attr_eqb a b = false.
Proof.
  intros H. destruct (attr_eqb a b) eqn:E; [|reflexivity].
  apply attr_eqb_eq in E. contradiction.
Qed.

Lemma existsb_attr_In x seen : existsb (attr_eqb x) seen = true <-> In x seen.
Proof.
  rewrite existsb_exists. split.
  - intros (y & Hy & E). apply attr_eqb_eq in E. now subst.
  - intros H. exists x. split; [exact H|apply attr_eqb_refl].
Qed.

Lemma od_set_keys {V : Type} (d : list (attr * V)) k v :
  map fst (od_set d k v)
  = if existsb (attr_eqb k) (map fst d) then map fst d else map fst d ++ [k].
Proof.
  induction d as [|[k' v'] d IH]; simpl; [reflexivity|].
  destruct (attr_eqb k' k) eqn:E.
  - apply attr_eqb_eq in E. subst. now rewrite attr_eqb_refl.
  - assert (attr_eqb k k' = false) as ->.
    { apply attr_eqb_neq. intros ->. now rewrite attr_eqb_refl in E. }
    simpl. rewrite IH. now destruct (existsb (attr_eqb k) (map fst d)).
Qed.

Lemma od_set_fresh {V : Type} (d : list (attr * V)) k v :
  ~ In k (map fst d) -> od_set d k v = d ++ [(k, v)].
Proof.
  induction d as [|[k' v'] d IH]; simpl; intros H; [reflexivity|].
  rewrite attr_eqb_neq by (intros ->; auto). rewrite IH by auto. reflexivity.
Qed.

Lemma od_set_twice {V : Type} (d : list (attr * V)) k v :
  od_set (od_set d k v) k v = od_set d k v.
Proof.
  induction d as [|[k' v'] d IH]; simpl.
  - now rewrite attr_eqb_refl.
  - destruct (attr_eqb k' k) eqn:E; simpl; rewrite E; [reflexivity|].
    now rewrite IH.
Qed.

Lemma od_get_set_same {V : Type} (d : list (attr * V)) k v :
  od_get (od_set d k v) k = Some v.
Proof.
  induction d as [|[k' v'] d IH]; simpl.
  - now rewrite attr_eqb_refl.
  - destruct (attr_eqb k' k) eqn:E; simpl; rewrite E; [reflexivity|exact IH].
Qed.

Lemma od_get_set_other {V : Type} (d : list (attr * V)) k v k' :
  k <> k' -> od_get (od_set d k v) k' = od_get d k'.
Proof.
  intros Hne. induction d as [|[k0 v0] d IH]; simpl.
  - now rewrite attr_eqb_neq.
  - destruct (attr_eqb k0 k) eqn:E; simpl.
    + apply attr_eqb_eq in E. subst. now rewrite attr_eqb_neq.
    + destruct (attr_eqb k0 k'); [reflexivity|exact IH].
Qed.

Lemma first_seen_ext l : forall s1 s2,
  (forall x, In x s1 <-> In x s2) -> first_seen s1 l = first_seen s2 l.
Proof.
  induction l as [|y l IH]; intros s1 s2 H; simpl; [reflexivity|].
  assert (existsb (attr_eqb y) s1 = existsb (attr_eqb y) s2) as ->.
  { destruct (existsb (attr_eqb y) s1) eqn:E1, (existsb (attr_eqb y) s2) eqn:E2;
      try reflexivity.
    - apply existsb_attr_In, H, existsb_attr_In in E1. congruence.
    - apply existsb_attr_In, H, existsb_attr_In in E2. congruence. }
  destruct (existsb (attr_eqb y) s2); [now apply IH|].
  f_equal. apply IH. intros x. simpl. now rewrite H.
Qed.

Lemma first_seen_spec l : forall seen,
  NoDup (first_seen seen l)
  /\ (forall x, In x (first_seen seen l) <-> In x l /\ ~ In x seen).
Proof.
  induction l as [|y l IH]; intros seen; simpl.
  - split; [constructor|]. intros x. tauto.
  - destruct (existsb (attr_eqb y) seen) eqn:E.
    + apply existsb_attr_In in E. destruct (IH seen) as [Hn Hi].
      split; [exact Hn|]. intros x. rewrite Hi. split; [tauto|].
      intros [[->|Hx] Hs]; [contradiction|tauto].
    + assert (~ In y seen) as Hy.
      { intros H. apply existsb_attr_In in H. congruence. }
      destruct (IH (y :: seen)) as [Hn Hi]. split.
      * constructor; [|exact Hn]. rewrite Hi. simpl. tauto.
      * intros x. simpl. rewrite Hi. simpl. split.
        -- intros [<-|[Hx Hs]]; tauto.
        -- intros [[<-|Hx] Hs]; [tauto|].
           destruct (attr_eqb_eq y x) as [_ Heq].
           destruct (attr_eqb y x) eqn:Eyx.
           ++ apply attr_eqb_eq in Eyx. tauto.
           ++ right. split; [exact Hx|]. intros [->|H]; [|tauto].
              now rewrite attr_eqb_refl in Eyx.
Qed.

Lemma process_attrs_keys attrs : forall d : list (attr * attr),
  map fst (fold_left (fun new_attrs e =>
                        od_set new_attrs (col_of e) (special_case (attr_of e)))
                     attrs d)
  = map fst d ++ first_seen (map fst d) (map col_of attrs).
Proof.
  induction attrs as [|e attrs IH]; intros d; simpl.
  - now rewrite app_nil_r.
  - rewrite IH, od_set_keys.
    destruct (existsb (attr_eqb (col_of e)) (map fst d)); [reflexivity|].
    rewrite <- app_assoc. simpl. do 2 f_equal.
    apply first_seen_ext. intros x. rewrite in_app_iff. simpl. tauto.
Qed.

(** X9: the columns [_process_attrs] gives are the column keys of the
    attrs list, each once, in the order they first occur. *)
Theorem process_attrs_columns (attrs : list entry) :
  map fst (_process_attrs attrs) = first_seen [] (map col_of attrs)
  /\ NoDup (map fst (_process_attrs attrs))
  /\ (forall c, In c (map fst (_process_attrs attrs))
                <-> In c (map col_of attrs)).
Proof.
  assert (map fst (_process_attrs attrs) = first_seen [] (map col_of attrs))
    as E by (unfold _process_attrs; now rewrite process_attrs_keys).
  destruct (first_seen_spec (map col_of attrs) []) as [Hn Hi].
  rewrite E. split; [reflexivity|]. split; [exact Hn|].
  intros c. rewrite Hi. simpl. tauto.
Qed.

Lemma process_attrs_app a b :
  _process_attrs (a ++ b)
  = fold_left (fun new_attrs e =>
                 od_set new_attrs (col_of e) (special_case (attr_of e)))
              b (_process_attrs a).
Proof. unfold _process_attrs. apply fold_left_app. Qed.

Lemma od_get_untouched post : forall (d : list (attr * attr)) k,
  ~ In k (map col_of post) ->
  od_get (fold_left (fun new_attrs e =>
                       od_set new_attrs (col_of e) (special_case (attr_of e)))
                    post d) k
  = od_get d k.
Proof.
  induction post as [|e post IH]; intros d k H; simpl; [reflexivity|].
  simpl in H. rewrite IH by tauto.
  apply od_get_set_other. intros E. apply H. now left.
Qed.

(** X10: when a column key occurs several times in the attrs list, the
    getter of its last occurrence is the one kept (with ['class_name'] and
    ['repr'] replaced by what they stand for). *)
Theorem process_attrs_last_wins (pre post : list entry) (e : entry) :
  ~ In (col_of e) (map col_of post) ->
  od_get (_process_attrs (pre ++ e :: post)) (col_of e)
  = Some (special_case (attr_of e)).
Proof.
  intros H. rewrite process_attrs_app. simpl.
  rewrite od_get_untouched by exact H. apply od_get_set_same.
Qed.

Lemma process_attrs_last_wins_witness :
  od_get (_process_attrs
            ([Pair (Name "kind") (Name "size"); Plain (Name "id")]
               ++ Pair (Name "kind") (Name "class_name")
               :: [Plain (Name "repr")]))
         (col_of (Pair (Name "kind") (Name "class_name")))
  = Some (special_case (attr_of (Pair (Name "kind") (Name "class_name")))).
Proof.
  apply (process_attrs_last_wins
           [Pair (Name "kind") (Name "size"); Plain (Name "id")]
           [Plain (Name "repr")] (Pair (Name "kind") (Name "class_name"))).
  simpl. intros [H|[]]. discriminate.
Defined.

(** ** The projection [listframe_to_frame] *)

Lemma mapM_total {A B : Type} (f : A -> B) (l : list A) :
  mapM (fun x => Ok (f x)) l = Ok (map f l).
Proof. induction l as [|x l IH]; simpl; [reflexivity|now rewrite IH]. Qed.

Lemma mapM_length {A B : Type} (f : A -> result B) (l : list A) : forall ys,
  mapM f l = Ok ys -> length ys = length l.
Proof.
  induction l as [|x l IH]; simpl; intros ys H; [now inversion H|].
  destruct (f x); [|discriminate]. destruct (mapM f l); [|discriminate].
  simpl in H. inversion H. simpl. f_equal. now apply IH.
Qed.

Lemma pd_DataFrame_dict_columns {value : Type}
    (sdict : list (attr * list value)) fr :
  pd_DataFrame_dict sdict = Ok fr ->
  o_columns fr = map fst sdict /\ o_cells fr = map snd sdict.
Proof.
  unfold pd_DataFrame_dict. destruct sdict as [|[k c0] sdict].
  - intros H. inversion H. auto.
  - destruct (forallb _ _); [|discriminate]. intros H. inversion H. auto.
Qed.

Lemma pd_DataFrame_dict_same_length {value : Type} (n : nat)
    (sdict : list (attr * list value)) :
  Forall (fun p => length (snd p) = n) sdict ->
  pd_DataFrame_dict sdict
  = Ok {| o_index := match sdict with [] => [] | _ :: _ => RangeIndex n end;
          o_columns := map fst sdict;
          o_cells := map snd sdict |}.
Proof.
  intros H. unfold pd_DataFrame_dict. destruct sdict as [|[k c0] sdict].
  - reflexivity.
  - assert (length c0 = n) as L by (inversion H; assumption).
    replace (forallb _ _) with true; [now rewrite L|].
    symmetry. apply forallb_forall. rewrite Forall_forall in H.
    intros p Hp. apply Nat.eqb_eq. rewrite L. now apply H.
Qed.

Lemma od_set_values {V : Type} (Q : V -> Prop) (d : list (attr * V)) k v :
  Forall (fun p => Q (snd p)) d -> Q v ->
  Forall (fun p => Q (snd p)) (od_set d k v).
Proof.
  induction 1 as [|[k' v'] d Hp Hd IH]; simpl; intros Hv.
  - repeat constructor. exact Hv.
  - destruct (attr_eqb k' k); constructor; auto.
Qed.

Lemma fold_od_set_values (Q : attr -> Prop) attrs : forall d : list (attr * attr),
  Forall (fun e => Q (special_case (attr_of e))) attrs ->
  Forall (fun p => Q (snd p)) d ->
  Forall (fun p => Q (snd p))
         (fold_left (fun new_attrs e =>
                       od_set new_attrs (col_of e) (special_case (attr_of e)))
                    attrs d).
Proof.
  induction attrs as [|e attrs IH]; intros d H Hd; simpl; [exact Hd|].
  inversion H; subst. apply IH; [assumption|]. now apply od_set_values.
Qed.

Lemma process_attrs_values (Q : attr -> Prop) attrs :
  Forall (fun e => Q (special_case (attr_of e))) attrs ->
  Forall (fun p => Q (snd p)) (_process_attrs attrs).
Proof.
  intros H. unfold _process_attrs. apply fold_od_set_values; [exact H|constructor].
Qed.

Lemma process_attrs_first_seen attrs :
  map fst (_process_attrs attrs) = first_seen [] (map col_of attrs).
Proof. unfold _process_attrs. now rewrite process_attrs_keys. Qed.

Lemma process_attrs_nodup attrs : NoDup (map fst (_process_attrs attrs)).
Proof.
  rewrite process_attrs_first_seen. apply first_seen_spec.
Qed.

Lemma special_case_name s :
  s <> "repr"%string -> exists s', special_case (Name s) = Name s'.
Proof.
  intros H. unfold special_case. simpl.
  destruct (String.eqb s "class_name") eqn:E; simpl; [eauto|].
  destruct (String.eqb s "repr") eqn:E'; [|eauto].
  apply String.eqb_eq in E'. contradiction.
Qed.

Section ProjectionFacts.

Variable object : Type.
Variable value : Type.
Variable py_None : value.
Variable attrgetter : string -> object -> result value.
Variable py_repr : object -> result value.
Variable callables : nat -> object -> result value.
Variable frame_cols : object -> result (list entry).

Lemma pick_columns_names lst : forall todo sdict,
  Forall (fun p => exists s, snd p = Name s) todo ->
  NoDup (map fst sdict ++ map fst todo) ->
  pick_columns object value py_None attrgetter py_repr callables todo lst sdict
  = Ok (sdict
       ++ map (fun p => (fst p,
                         name_cells object value py_None attrgetter lst
                           (snd p))) todo).
Proof.
  induction todo as [|[col a] todo IH]; intros sdict Hall Hnd; simpl.
  - now rewrite app_nil_r.
  - inversion Hall as [|? ? [s Hs] Hall']; subst. simpl in Hs. subst a.
    simpl. rewrite mapM_total. simpl.
    assert (~ In col (map fst sdict)) as Hfresh.
    { intros Hin. apply NoDup_remove_2 in Hnd. apply Hnd.
      apply in_or_app. now left. }
    rewrite od_set_fresh by exact Hfresh.
    rewrite IH; [now rewrite <- app_assoc|exact Hall'|].
    rewrite map_app. simpl. rewrite <- app_assoc. exact Hnd.
Qed.

Lemma pick_columns_app lst i1 : forall i2 sdict,
  pick_columns object value py_None attrgetter py_repr callables
    (i1 ++ i2) lst sdict
  = (sd <- pick_columns object value py_None attrgetter py_repr callables
             i1 lst sdict ;;
     pick_columns object value py_None attrgetter py_repr callables i2 lst sd).
Proof.
  induction i1 as [|[col a] i1 IH]; intros i2 sdict; simpl; [reflexivity|].
  destruct (_column_picker object value py_None attrgetter py_repr callables
              a lst); simpl; [apply IH|reflexivity].
Qed.

Lemma pick_columns_keys lst : forall todo sdict sd,
  NoDup (map fst sdict ++ map fst todo) ->
  pick_columns object value py_None attrgetter py_repr callables todo lst sdict
  = Ok sd ->
  map fst sd = map fst sdict ++ map fst todo.
Proof.
  induction todo as [|[col a] todo IH]; intros sdict sd Hnd; simpl.
  - intros H. inversion H. now rewrite app_nil_r.
  - destruct (_column_picker object value py_None attrgetter py_repr callables
                a lst) as [data|]; simpl; [|discriminate].
    assert (~ In col (map fst sdict)) as Hfresh.
    { intros Hin. apply NoDup_remove_2 in Hnd. apply Hnd.
      apply in_or_app. now left. }
    rewrite od_set_fresh by exact Hfresh. intros H.
    apply IH in H.
    + rewrite H, map_app, <- app_assoc. reflexivity.
    + rewrite map_app. simpl. rewrite <- app_assoc. exact Hnd.
Qed.

(** X11: on a non-empty list, with an attrs list whose getters are all
    attribute names (no callable, no ['repr']) and without [repr_col],
    [listframe_to_frame] does not raise and leaves the attrs list as it
    was. The frame has one column per distinct column key, in the order
    of first occurrence, and every column holds one cell per object: the
    attribute, or [None] where reading it raised. An empty attrs list
    gives a frame without rows. *)
Theorem listframe_to_frame_names test rest attrs :
  Forall (fun e => exists s, attr_of e = Name s /\ s <> "repr"%string) attrs ->
  exists fr,
    listframe_to_frame object value py_None attrgetter py_repr callables
      frame_cols (test :: rest) (Some attrs) false
    = (Ok fr, Some attrs)
    /\ o_columns fr = first_seen [] (map col_of attrs)
    /\ o_cells fr
       = map (fun p => name_cells object value py_None attrgetter
                         (test :: rest) (snd p))
             (_process_attrs attrs)
    /\ Forall (fun cells => length cells = S (length rest)) (o_cells fr)
    /\ o_index fr = match attrs with
                    | [] => []
                    | _ :: _ => RangeIndex (S (length rest))
                    end.
Proof.
  intros Hnames. set (lst := test :: rest).
  set (P := _process_attrs attrs).
  assert (Forall (fun p => exists s, snd p = Name s) P) as HP.
  { apply (process_attrs_values (fun a => exists s, a = Name s)).
    eapply Forall_impl; [|exact Hnames]. intros e (s & -> & Hs).
    now apply special_case_name. }
  pose proof (pick_columns_names lst P [] HP (process_attrs_nodup attrs))
    as Hpick.
  simpl in Hpick.
  set (sd := map (fun p => (fst p,
                            name_cells object value py_None attrgetter lst
                              (snd p))) P) in *.
  assert (Forall (fun p => length (snd p) = length lst) sd) as Hlen.
  { unfold sd. rewrite Forall_map. eapply Forall_impl; [|exact HP].
    intros p (s & Hs). simpl. rewrite Hs. simpl.
    now rewrite length_map. }
  eexists. split; [|split; [|split; [|split]]].
  - unfold listframe_to_frame. fold lst. simpl. fold P. rewrite Hpick.
    simpl. rewrite (pd_DataFrame_dict_same_length (length lst) sd Hlen).
    reflexivity.
  - simpl. unfold sd. rewrite map_map. simpl.
    apply process_attrs_first_seen.
  - simpl. unfold sd. now rewrite map_map.
  - simpl. rewrite Forall_map. exact Hlen.
  - simpl. assert (map fst sd = first_seen [] (map col_of attrs)) as Hk.
    { unfold sd. rewrite map_map. simpl. apply process_attrs_first_seen. }
    destruct attrs as [|e attrs].
    + destruct sd; [reflexivity|discriminate].
    + destruct sd; [discriminate|reflexivity].
Qed.

(** X12: [repr_col] appends ['repr'] to the attrs list it was given, at
    every call: a second call with the same list finds one more entry and
    adds another, and still builds the same frame (or raises the same
    exception), since the repeated key sets the same column again. *)
Theorem listframe_to_frame_repr_col_grows test rest attrs :
  let lst := test :: rest in
  let first :=
    listframe_to_frame object value py_None attrgetter py_repr callables
      frame_cols lst (Some attrs) true in
  let again :=
    listframe_to_frame object value py_None attrgetter py_repr callables
      frame_cols lst (snd first) true in
  snd first = Some (attrs ++ [Plain (Name "repr")])
  /\ snd again = Some (attrs ++ [Plain (Name "repr"); Plain (Name "repr")])
  /\ fst again = fst first.
Proof.
  simpl. split; [reflexivity|]. split.
  - now rewrite <- app_assoc.
  - rewrite (process_attrs_app (attrs ++ [Plain (Name "repr")])). simpl.
    rewrite (process_attrs_app attrs). simpl.
    now rewrite od_set_twice.
Qed.

(** X13: with [repr_col], on an attrs list that names no column ['repr'],
    a frame that is returned has the columns of the attrs list followed
    by a last column ['repr'], which holds [repr(obj)] for every object
    of the list. *)
Theorem listframe_to_frame_repr_column test rest attrs fr :
  ~ In (Name "repr") (map col_of attrs) ->
  fst (listframe_to_frame object value py_None attrgetter py_repr callables
         frame_cols (test :: rest) (Some attrs) true) = Ok fr ->
  o_columns fr = first_seen [] (map col_of attrs) ++ [Name "repr"]
  /\ exists reprs, mapM py_repr (test :: rest) = Ok reprs
                   /\ last (o_cells fr) [] = reprs.
Proof.
  intros Hno. unfold listframe_to_frame. cbv beta iota. cbn [fst].
  generalize (test :: rest). intros lst.
  assert (~ In (Name "repr") (map fst (_process_attrs attrs))) as Hfresh.
  { rewrite process_attrs_first_seen.
    destruct (first_seen_spec (map col_of attrs) []) as [_ Hi].
    rewrite Hi. tauto. }
  rewrite process_attrs_app. simpl fold_left.
  change (special_case (Name "repr")) with Repr.
  rewrite od_set_fresh by exact Hfresh.
  rewrite pick_columns_app.
  destruct (pick_columns object value py_None attrgetter py_repr callables
              (_process_attrs attrs) lst []) as [sd|] eqn:Epick;
    cbn [bind pick_columns _column_picker]; [|discriminate].
  destruct (mapM py_repr lst) as [reprs|] eqn:Erepr; cbn [bind];
    [|discriminate].
  apply pick_columns_keys in Epick; [|apply process_attrs_nodup].
  simpl in Epick.
  rewrite od_set_fresh by (rewrite Epick; exact Hfresh).
  intros Hfr. apply pd_DataFrame_dict_columns in Hfr. destruct Hfr as [Hc Hd].
  split.
  - rewrite Hc, map_app, Epick, process_attrs_first_seen. reflexivity.
  - exists reprs. split; [reflexivity|].
    rewrite Hd, map_app. simpl. apply last_last.
Qed.

End ProjectionFacts.

Lemma listframe_to_frame_names_witness :
  exists fr,
    listframe_to_frame Z Z (-1)
      (fun s obj => if String.eqb s "x" then Ok obj else Raise AttributeError)
      (fun obj => Ok (obj + 100)) (fun _ obj => Ok obj)
      (fun _ => Raise AttributeError)
      (4 :: [7]) (Some [Plain (Name "x"); Pair (Name "y") (Name "missing")])
      false
    = (Ok fr, Some [Plain (Name "x"); Pair (Name "y") (Name "missing")])
    /\ o_columns fr
       = first_seen []
           (map col_of [Plain (Name "x"); Pair (Name "y") (Name "missing")])
    /\ o_cells fr
       = map (fun p =>
                name_cells Z Z (-1)
                  (fun s obj =>
                     if String.eqb s "x" then Ok obj else Raise AttributeError)
                  (4 :: [7]) (snd p))
             (_process_attrs
                [Plain (Name "x"); Pair (Name "y") (Name "missing")])
    /\ Forall (fun cells => length cells = S (length [7])) (o_cells fr)
    /\ o_index fr = RangeIndex (S (length [7])).
Proof.
  apply (listframe_to_frame_names Z Z (-1)
           (fun s obj =>
              if String.eqb s "x" then Ok obj else Raise AttributeError)
           (fun obj => Ok (obj + 100)) (fun _ obj => Ok obj)
           (fun _ => Raise AttributeError)
           4 [7] [Plain (Name "x"); Pair (Name "y") (Name "missing")]).
  repeat constructor; eexists; (split; [reflexivity|discriminate]).
Defined.

Lemma listframe_to_frame_repr_column_witness :
  o_columns {| o_index := RangeIndex 2;
               o_columns := [Name "x"; Name "repr"];
               o_cells := [[4; 7]; [104; 107]] |}
  = first_seen [] (map col_of [Plain (Name "x")]) ++ [Name "repr"]
  /\ exists reprs,
       mapM (fun obj => Ok (obj + 100)) (4 :: [7]) = Ok reprs
       /\ last (o_cells {| o_index := RangeIndex 2;
                           o_columns := [Name "x"; Name "repr"];
                           o_cells := [[4; 7]; [104; 107]] |}) [] = reprs.
Proof.
  apply (listframe_to_frame_repr_column Z Z (-1)
           (fun s obj =>
              if String.eqb s "x" then Ok obj else Raise AttributeError)
           (fun obj => Ok (obj + 100)) (fun _ obj => Ok obj)
           (fun _ => Raise AttributeError)
           4 [7] [Plain (Name "x")]).
  - simpl. intros [H|[]]. discriminate.
  - reflexivity.
Defined.

(** ** More on the selectors *)

Lemma In_orient {A : Type} b (l : list A) x : In x (orient b l) <-> In x l.
Proof. destruct b; simpl; [tauto|]. symmetry. apply in_rev. Qed.

Lemma Permutation_orient {A : Type} b (l : list A) : Permutation (orient b l) l.
Proof. destruct b; simpl; [reflexivity|]. symmetry. apply Permutation_rev. Qed.

(** X14: [bn_topn] returns the extremes. The values returned together
    with the numbers left out are the numbers of the sequence; for
    [N > 0] no number left out is larger than a returned one, for
    [N <= 0] none is smaller. *)
Theorem bn_topn_extremes
    (partsort : list float -> Z -> result (list float)) s N ascending :
  partsort_contract partsort ->
  exists r rest,
    bn_topn partsort s N ascending = Ok r
    /\ Permutation (dropna s) (r ++ rest)
    /\ forall x y, In x r -> In y rest ->
                   if N >? 0 then fle y x else fle x y.
Proof.
  intros Hc. rewrite (bn_topn_selected _ Hc).
  set (asc := resolve_ascending N ascending).
  pose proof (np_sort_perm (dropna s)) as HP.
  pose proof (np_sort_sorted (dropna s)) as HS.
  unfold selected. set (srt := np_sort (dropna s)) in *.
  destruct (N >? 0).
  - exists (orient asc (skipn (length srt - Z.to_nat N) srt)),
           (firstn (length srt - Z.to_nat N) srt).
    split; [reflexivity|]. split.
    + rewrite Permutation_orient, Permutation_app_comm, firstn_skipn.
      now symmetry.
    + intros x y Hx Hy. apply In_orient in Hx.
      exact (sorted_split_at _ _ HS y x Hy Hx).
  - destruct (N =? 0).
    + exists (orient asc srt), []. split; [reflexivity|]. split.
      * rewrite app_nil_r, Permutation_orient. now symmetry.
      * intros x y _ [].
    + exists (orient asc (firstn (Z.to_nat (- N)) srt)),
             (skipn (Z.to_nat (- N)) srt).
      split; [reflexivity|]. split.
      * rewrite Permutation_orient, firstn_skipn. now symmetry.
      * intros x y Hx Hy. apply In_orient in Hx.
        exact (sorted_split_at _ _ HS x y Hx Hy).
Qed.

Lemma bn_topn_extremes_witness :
  exists r rest,
    bn_topn ref_partsort [Num 3; NaN; Num 8; Num 1; Num 8] 2 None = Ok r
    /\ Permutation (dropna [Num 3; NaN; Num 8; Num 1; Num 8]) (r ++ rest)
    /\ forall x y, In x r -> In y rest ->
                   if 2 >? 0 then fle y x else fle x y.
Proof.
  apply (bn_topn_extremes ref_partsort [Num 3; NaN; Num 8; Num 1; Num 8] 2 None).
  exact ref_partsort_contract.
Defined.

(** X15: the default order. Without [ascending], the largest come back
    largest first ([N > 0]) and the smallest come back smallest first
    ([N <= 0]). *)
Theorem bn_topn_default_order
    (partsort : list float -> Z -> result (list float)) s N :
  partsort_contract partsort ->
  exists r, bn_topn partsort s N None = Ok r
            /\ if N >? 0 then StronglySorted fle (rev r)
               else StronglySorted fle r.
Proof.
  intros Hc. rewrite (bn_topn_selected _ Hc). eexists. split; [reflexivity|].
  simpl. destruct (N >? 0); simpl.
  - rewrite rev_involutive. apply selected_sorted.
  - apply selected_sorted.
Qed.

Lemma bn_topn_default_order_witness :
  exists r, bn_topn ref_partsort [Num 3; NaN; Num 8; Num 1] 3 None = Ok r
            /\ if 3 >? 0 then StronglySorted fle (rev r)
               else StronglySorted fle r.
Proof.
  apply (bn_topn_default_order ref_partsort [Num 3; NaN; Num 8; Num 1] 3).
  exact ref_partsort_contract.
Defined.

Lemma NoDup_map_nth {A : Type} (d : A) (l : list A) (p : list nat) :
  NoDup l -> NoDup p -> Forall (fun j => (j < length l)%nat) p ->
  NoDup (map (fun j => nth j l d) p).
Proof.
  intros Hl Hp Hr. induction Hp as [|j p Hj Hp IH]; simpl; [constructor|].
  inversion Hr as [|? ? Hlt Hr']; subst.
  constructor; [|now apply IH].
  intros Hin. apply in_map_iff in Hin. destruct Hin as (j' & E & Hj').
  rewrite Forall_forall in Hr'. specialize (Hr' j' Hj').
  rewrite NoDup_nth in Hl. apply (Hl j' j Hr' Hlt) in E. now subst.
Qed.

Lemma where_from_increasing mask : forall k,
  Forall (fun i => (k <= i)%nat) (where_from k mask)
  /\ NoDup (where_from k mask).
Proof.
  induction mask as [|b mask IH]; intros k; simpl; [split; constructor|].
  destruct (IH (S k)) as [Hr Hn].
  assert (Forall (fun i => (k <= i)%nat) (where_from (S k) mask)) as Hr'
      by (eapply Forall_impl; [|exact Hr]; simpl; intros; lia).
  destruct b; [|split; assumption].
  split; [constructor; [lia|exact Hr']|].
  constructor; [|exact Hn]. intros Hin.
  rewrite Forall_forall in Hr. apply Hr in Hin. lia.
Qed.

Lemma NoDup_firstn {A : Type} (n : nat) (l : list A) : NoDup l -> NoDup (firstn n l).
Proof.
  intros H. rewrite <- (firstn_skipn n l) in H. now apply NoDup_app_remove_r in H.
Qed.

Lemma NoDup_skipn {A : Type} (n : nat) (l : list A) : NoDup l -> NoDup (skipn n l).
Proof.
  intros H. rewrite <- (firstn_skipn n l) in H. now apply NoDup_app_remove_l in H.
Qed.

Section TopargnPositions.

Variable argpartsort : list float -> Z -> result (list nat).
Variable argsort : list float -> list nat.
Hypothesis argpartsort_spec : argpartsort_contract argpartsort.
Hypothesis argsort_spec : argsort_contract argsort.

(** The second half of [bn_topargn] keeps distinct positions distinct,
    and gives positions of the original array. *)
Lemma bn_topargn_order_distinct s ix (asc : bool) :
  Forall (fun i => (i < length (dropna s))%nat) ix ->
  NoDup ix ->
  exists idx,
    (vals <- take (dropna s) ix ;;
     index' <- take ix
                 (if negb asc then rev (argsort vals) else argsort vals) ;;
     if negb (mask_sum (np_isnan s) =? 0)
     then take (np_where (np_not (np_isnan s))) index'
     else Ok index') = Ok idx
    /\ NoDup idx
    /\ Forall (fun i => (i < length s)%nat) idx.
Proof.
  intros Hix Hnd.
  pose proof (dropna_no_nan s) as Ha.
  rewrite (take_in_range NaN (dropna s) ix Hix). simpl.
  fold (values_at (dropna s) ix). set (vals := values_at (dropna s) ix).
  assert (no_nan vals) as Hv by now apply values_at_no_nan.
  assert (length vals = length ix) as Lv
      by (unfold vals, values_at; now rewrite length_map).
  set (p := if negb asc then rev (argsort vals) else argsort vals).
  pose proof (argsort_perm _ argsort_spec vals Hv) as Hperm.
  assert (Forall (fun j => (j < length ix)%nat) p /\ NoDup p) as [Hp Hpn].
  { rewrite <- Lv. pose proof (perm_seq_in_range _ _ Hperm) as Hr.
    assert (NoDup (argsort vals)) as Hn.
    { eapply Permutation_NoDup; [symmetry; exact Hperm|apply seq_NoDup]. }
    unfold p. destruct (negb asc); split; auto.
    - now apply Forall_rev.
    - now apply NoDup_rev. }
  rewrite (take_in_range 0%nat ix p Hp). simpl.
  set (idx2 := map (fun j => nth j ix 0%nat) p).
  assert (NoDup idx2) as N2 by now apply NoDup_map_nth.
  assert (Forall (fun i => (i < length (dropna s))%nat) idx2) as H2.
  { unfold idx2. rewrite Forall_map. eapply Forall_impl; [|exact Hp].
    intros j Hj. simpl in Hj. rewrite Forall_forall in Hix.
    apply Hix, nth_In, Hj. }
  destruct (Z.eqb_spec (mask_sum (np_isnan s)) 0) as [E|E]; simpl.
  - assert (dropna s = s) as Eas.
    { pose proof (compacted s) as C. rewrite <- C.
      destruct (Z.eqb_spec (mask_sum (np_isnan s)) 0); [reflexivity|lia]. }
    exists idx2. split; [reflexivity|]. split; [exact N2|].
    now rewrite Eas in H2.
  - set (oim := np_where (np_not (np_isnan s))).
    assert (Forall (fun i => (i < length oim)%nat) idx2) as H3
        by (unfold oim; now rewrite np_where_length).
    rewrite (take_in_range 0%nat oim idx2 H3).
    eexists. split; [reflexivity|]. split.
    + apply NoDup_map_nth; [|exact N2|exact H3].
      unfold oim, np_where. apply where_from_increasing.
    + rewrite Forall_map. eapply Forall_impl; [|exact H3].
      intros j Hj. simpl in Hj.
      pose proof (np_where_in_range s) as Hr. fold oim in Hr.
      rewrite Forall_forall in Hr. apply Hr, nth_In, Hj.
Qed.

(** X16: on a request it serves, [bn_topargn] returns [|N|] positions of
    the original sequence, all different, also where values are tied. *)
Theorem bn_topargn_distinct_positions s N ascending :
  served N s ->
  exists idx,
    bn_topargn argpartsort argsort s N ascending = Ok idx
    /\ len idx = Z.abs N
    /\ NoDup idx
    /\ Forall (fun i => (i < length s)%nat) idx.
Proof.
  intros HN.
  destruct (bn_topargn_selected argpartsort argsort argpartsort_spec
              argsort_spec s N ascending HN) as (idx0 & Hidx0 & Ht).
  assert (len idx0 = Z.abs N) as Hlen.
  { apply take_length in Ht. rewrite orient_length in Ht.
    pose proof (selected_length s N) as L. unfold served in HN.
    destruct (Z.eqb_spec N 0); unfold len in *; lia. }
  exists idx0. split; [exact Hidx0|]. split; [exact Hlen|].
  revert Hidx0. unfold bn_topargn. cbv zeta. rewrite compacted.
  fold (resolve_ascending N ascending).
  pose proof (dropna_no_nan s) as Ha. unfold served, len in HN.
  destruct (Z.gtb_spec N 0) as [Hpos|Hneg].
  - set (n := len (dropna s) - Z.abs N).
    destruct (argpartsort_ok _ argpartsort_spec (dropna s) n Ha)
      as (out & -> & Hp & _); [unfold n, len; lia|].
    unfold bind at 1. rewrite getslice_from by (unfold n, len; lia).
    destruct (bn_topargn_order_distinct s (skipn (Z.to_nat n) out)
                (resolve_ascending N ascending)) as (idx & Hidx & Hn & Hr).
    + apply perm_seq_in_range in Hp.
      rewrite Forall_forall in *. intros i Hi. eapply Hp, in_skipn, Hi.
    + apply NoDup_skipn. eapply Permutation_NoDup;
        [symmetry; exact Hp|apply seq_NoDup].
    + rewrite Hidx. intros E.
      inversion E. subst. auto.
  - set (n := Z.abs N).
    destruct (argpartsort_ok _ argpartsort_spec (dropna s) n Ha)
      as (out & -> & Hp & _); [unfold n, len; lia|].
    unfold bind at 1. rewrite getslice_to by (unfold n, len; lia).
    destruct (bn_topargn_order_distinct s (firstn (Z.to_nat n) out)
                (resolve_ascending N ascending)) as (idx & Hidx & Hn & Hr).
    + apply perm_seq_in_range in Hp.
      rewrite Forall_forall in *. intros i Hi. eapply Hp, in_firstn, Hi.
    + apply NoDup_firstn. eapply Permutation_NoDup;
        [symmetry; exact Hp|apply seq_NoDup].
    + rewrite Hidx. intros E.
      inversion E. subst. auto.
Qed.

End TopargnPositions.

Lemma bn_topargn_distinct_positions_witness :
  exists idx,
    bn_topargn ref_argpartsort ref_argsort
      [Num 8; NaN; Num 8; Num 1; Num 8] 2 None = Ok idx
    /\ len idx = Z.abs 2
    /\ NoDup idx
    /\ Forall (fun i => (i < length [Num 8; NaN; Num 8; Num 1; Num 8])%nat) idx.
Proof.
  apply (bn_topargn_distinct_positions ref_argpartsort ref_argsort
           ref_argpartsort_contract ref_argsort_contract
           [Num 8; NaN; Num 8; Num 1; Num 8] 2 None).
  left. unfold len. simpl. lia.
Defined.

(** ** The scenarios of the specification *)

Example scenario_values :
  bn_topn ref_partsort [Num 3; Num 1; NaN; Num 5; Num 2] 2 None
  = Ok [Num 5; Num 3].
Proof. reflexivity. Qed.

Example scenario_indices :
  bn_topargn ref_argpartsort ref_argsort [Num 3; Num 1; NaN; Num 5; Num 2] 2 None
  = Ok [3%nat; 0%nat].
Proof. reflexivity. Qed.

Example scenario_bottom_values :
  bn_topn ref_partsort [Num 3; Num 1; Num 5; Num 2] (-2) None
  = Ok [Num 1; Num 2].
Proof. reflexivity. Qed.

Example scenario_bottom_indices :
  bn_topargn ref_argpartsort ref_argsort [Num 3; Num 1; Num 5; Num 2] (-2) None
  = Ok [1%nat; 3%nat].
Proof. reflexivity. Qed.


Example scenario_rows :
  topn_df ref_partsort
    {| index := [LInt 0; LInt 1];
       columns := [LStr "a"; LStr "b"; LStr "c"; LStr "d"];
       values := [[Num 3; Num 1; Num 5; Num 2];
                  [Num 9; NaN; Num 4; Num 0]] |} 2 None true
  = Ok (inl {| index := [LInt 0; LInt 1];
               columns := [LInt 0; LInt 1];
               values := [[Num 5; Num 3]; [Num 9; Num 4]] |}).
Proof. reflexivity. Qed.

Example scenario_short_row :
  topn_df ref_partsort
    {| index := [LInt 0; LInt 1];
       columns := [LStr "a"; LStr "b"; LStr "c"];
       values := [[Num 3; NaN; NaN]; [Num 9; Num 7; Num 4]] |} (-2) None false
  = Ok (inr {| shape := (2%nat, 2%nat);
               data := [[Num 3; NaN]; [Num 4; Num 7]] |}).
Proof. reflexivity. Qed.

(** A list of integers as a [ListFrame] whose table is the item count: the
    cache filled by [to_frame] is gone after [append], and after a [pop]
    that raises. *)
Example scenario_cache_cleared :
  let lf := ListFrame_init Z nat unit (Some [4; 2]) None false in
  let '(_, lf1) := to_frame Z nat unit (fun l _ _ => length l) lf None None in
  let '(r, lf2) :=
    call Z Z.eqb Z.ltb nat unit lf1 "append"%string [AObj Z 7] in
  _cache_df _ _ _ lf1 = Some 2%nat
  /\ r = Ok tt /\ items _ _ _ lf2 = [4; 2; 7] /\ _cache_df _ _ _ lf2 = None.
Proof. repeat split; reflexivity. Qed.

Example scenario_cache_cleared_on_error :
  let lf := ListFrame_init Z nat unit None None false in
  let '(_, lf1) := to_frame Z nat unit (fun l _ _ => length l) lf None None in
  let '(r, lf2) := call Z Z.eqb Z.ltb nat unit lf1 "pop"%string [] in
  _cache_df _ _ _ lf1 = Some 0%nat
  /\ r = Raise IndexError /\ _cache_df _ _ _ lf2 = None.
Proof. repeat split; reflexivity. Qed.

(** Objects that are integers with one attribute [x]: a missing attribute
    gives a [None] cell (here [-1]), a raising callable makes the call
    raise, and an empty list gives the empty frame without touching the
    attrs list. *)
Example scenario_projection :
  let ltf :=
    listframe_to_frame Z Z (-1)
      (fun s obj => if String.eqb s "x" then Ok obj else Raise AttributeError)
      (fun obj => Ok (obj + 100))
      (fun _ obj => if obj =? 7 then Raise TypeError else Ok obj)
      (fun _ => Raise AttributeError) in
  ltf [4; 7] (Some [Plain (Name "x"); Plain (Name "y")]) false
  = (Ok {| o_index := RangeIndex 2;
           o_columns := [Name "x"; Name "y"];
           o_cells := [[4; 7]; [-1; -1]] |},
     Some [Plain (Name "x"); Plain (Name "y")])
  /\ ltf [4; 7] (Some [Plain (Func 0)]) true
     = (Raise TypeError, Some [Plain (Func 0); Plain (Name "repr")])
  /\ ltf [] (Some [Plain (Func 0)]) true
     = (Ok empty_frame, Some [Plain (Func 0)])
  /\ ltf [4; 7] None false = (Raise AttributeError, None).
Proof. repeat split; reflexivity. Qed.

(** The in-place operator is inherited from the list unwrapped: the table
    cached for [[4; 2]] is still there when the list is [[4; 2; 7]]. *)
Example scenario_cache_survives_iadd :
  let lf := ListFrame_init Z nat unit (Some [4; 2]) None false in
  let '(_, lf1) := to_frame Z nat unit (fun l _ _ => length l) lf None None in
  let '(r, lf2) :=
    call Z Z.eqb Z.ltb nat unit lf1 "__iadd__"%string [ASeq Z [7]] in
  r = Ok tt /\ items _ _ _ lf2 = [4; 2; 7]
  /\ _cache_df _ _ _ lf2 = Some 2%nat.
Proof. repeat split; reflexivity. Qed.

(** [sort] keeps equal items in their order: pairs compared by their
    first component. *)
Example scenario_sort_stable :
  list_sort (Z * Z) (fun p q => fst p <? fst q) [(2, 0); (1, 5); (2, 1)]
  = [(1, 5); (2, 0); (2, 1)].
Proof. reflexivity. Qed.

(** A split point beyond a C [int] is an [OverflowError]. *)
Example scenario_overflow :
  bn_topargn ref_argpartsort ref_argsort [Num 3; Num 1; Num 5] (2 ^ 40) None
  = Raise OverflowError
  /\ bn_topargn ref_argpartsort ref_argsort [Num 3; Num 1; Num 5] (- 2 ^ 31) None
     = Raise OverflowError
  /\ bn_topargn ref_argpartsort ref_argsort [Num 3; Num 1; Num 5] (- 4) None
     = Raise ValueError.
Proof. repeat split; reflexivity. Qed.
